(** * RRWebDBManager: the event-durability pipeline of the session recorder

    A shallow embedding of [src/components/RRWebRecorder.tsx] (the version
    of the class that carries the query and export methods): the singleton
    [RRWebDBManager] with its ingress queue, its lifecycle flags, the
    IndexedDB object store it writes to, and the query / export facade;
    then the console helpers the recorder installs on [window] and the
    [exportCurrentSession] button of [src/components/RRWebViewer.tsx].
    [exportAllSessions] is left out: it groups records in a plain object
    keyed by [sessionId] and pauses on a timer, neither of which this
    model of the host covers.

    Conventions.
    - JavaScript numbers are modelled by [Z] (the code only counts, indexes
      and timestamps with them).
    - An [async] method is a program of the monad [Prog]: synchronous steps
      over the shared state, and [Await] nodes where the method suspends on
      an IndexedDB request.  [start] runs a program up to its first
      suspension, [run] runs it to completion with the host answering each
      request as soon as it is issued.
    - [play] runs an interleaving of calls and host answers, the requests
      in flight being answered in the order in which they were issued.
    - The host (IndexedDB, the tab's [sessionStorage], the clock,
      [Math.random], [alert], file downloads) is the record [World]; its
      requests succeed or fail as the script [faults] says.  [JSON] and
      [Date.prototype.toISOString] are the class [Host].
    - [console.log] / [console.error] calls are diagnostics only and are
      not modelled. *)

From Stdlib Require Import ZArith List String Ascii Bool Lia.
From Stdlib Require Import DecimalString Sorting.Sorted.
From Stdlib Require Import Structures.OrderedTypeEx.
Import ListNotations.

Local Open Scope string_scope.
Local Open Scope list_scope.
Local Open Scope Z_scope.

(* ================================================================= *)
(** ** JavaScript values and array primitives *)

Module Js.

(** Values of type [any]. *)
#[local] Unset Elimination Schemes.
Inductive JsValue : Type :=
| JsUndefined
| JsNull
| JsBoolean (b : bool)
| JsNumber (n : Z)
| JsString (s : string)
| JsArray (elems : list JsValue)
| JsObject (props : list (string * JsValue)).
#[local] Set Elimination Schemes.

(** [ToBoolean]. *)
Definition truthy (v : JsValue) : bool :=
  match v with
  | JsUndefined | JsNull => false
  | JsBoolean b => b
  | JsNumber n => negb (n =? 0)
  | JsString s => negb (String.eqb s "")
  | JsArray _ | JsObject _ => true
  end.

(** The [typeof] operator. *)
Definition typeof (v : JsValue) : string :=
  match v with
  | JsUndefined => "undefined"
  | JsNull => "object"
  | JsBoolean _ => "boolean"
  | JsNumber _ => "number"
  | JsString _ => "string"
  | JsArray _ | JsObject _ => "object"
  end.

(** [arr.slice(start)]: a negative [start] counts from the end. *)
Definition slice {A : Type} (start : Z) (arr : list A) : list A :=
  let len := Z.of_nat (List.length arr) in
  let k := if start <? 0 then Z.max (len + start) 0 else Z.min start len in
  skipn (Z.to_nat k) arr.

(** [arr.indexOf(x)] on an array of strings: the first index holding
    [x], or [-1]. *)
Fixpoint indexOf_from (arr : list string) (x : string) (i : Z) : Z :=
  match arr with
  | [] => -1
  | y :: rest => if String.eqb y x then i else indexOf_from rest x (i + 1)
  end.

Definition indexOf (arr : list string) (x : string) : Z :=
  indexOf_from arr x 0.

(** [arr.filter((element, index, array) => ...)]. *)
Fixpoint filter_from {A : Type} (f : A -> Z -> list A -> bool)
         (whole : list A) (i : Z) (arr : list A) : list A :=
  match arr with
  | [] => []
  | x :: rest =>
      if f x i whole then x :: filter_from f whole (i + 1) rest
      else filter_from f whole (i + 1) rest
  end.

Definition filter_indexed {A : Type} (f : A -> Z -> list A -> bool)
           (arr : list A) : list A :=
  filter_from f arr 0 arr.

(** The strings of an array of values all of which are strings (the
    array is annotated [string[]] in the source). *)
Definition as_strings (vs : list JsValue) : list string :=
  flat_map (fun v => match v with JsString s => [s] | _ => [] end) vs.

(** [Number.prototype.toString] on an integer. *)
Definition number_toString (n : Z) : string :=
  NilZero.string_of_int (Z.to_int n).

End Js.
Export Js.

(* ================================================================= *)
(** ** Events and stored records *)

(** [interface RRWebEvent]. *)
Record RRWebEvent : Type := mkEvent {
  ev_type : Z;
  ev_data : JsValue;
  ev_timestamp : Z;
  ev_delay : option Z
}.

(** The object handed to [store.add]: [{data, timestamp, sessionId}]. *)
Record NewRecord : Type := mkNew {
  new_data : RRWebEvent;
  new_timestamp : Z;
  new_sessionId : JsValue
}.

(** A record as persisted, with the key the store assigned ([keyPath:
    'id', autoIncrement: true]). *)
Record StoredRecord : Type := mkStored {
  rec_id : Z;
  rec_data : RRWebEvent;
  rec_timestamp : Z;
  rec_sessionId : JsValue
}.

(* ================================================================= *)
(** ** The IndexedDB object store ['events'] *)

Module IDB.

(** The object store: its records in ascending key order, the key
    generator, and the ['sessionId'] index, whose entries are pairs
    (index key, primary key) kept sorted by index key, then primary
    key.  (The ['timestamp'] index is created by the source but no
    method reads it.) *)
Record ObjectStore : Type := mkStore {
  records : list StoredRecord;
  keyGenerator : Z;
  sessionIdIndex : list (string * Z)
}.

(** [createObjectStore('events', ...)] followed by the two
    [createIndex] calls: an empty store whose first key is 1. *)
Definition createObjectStore : ObjectStore :=
  {| records := []; keyGenerator := 1; sessionIdIndex := [] |}.

(** Order of index entries. *)
Definition entry_leb (a b : string * Z) : bool :=
  match String.compare (fst a) (fst b) with
  | Lt => true
  | Eq => snd a <=? snd b
  | Gt => false
  end.

Fixpoint index_insert (e : string * Z) (idx : list (string * Z))
  : list (string * Z) :=
  match idx with
  | [] => [e]
  | x :: rest =>
      if entry_leb e x then e :: idx else x :: index_insert e rest
  end.

(** [store.add(value)]: the key generator supplies the id; the record
    enters the ['sessionId'] index only when its [sessionId] is a valid
    key (here: a string). *)
Definition store_add (v : NewRecord) (st : ObjectStore) : ObjectStore :=
  let id := keyGenerator st in
  {| records := records st ++
                [ {| rec_id := id; rec_data := new_data v;
                     rec_timestamp := new_timestamp v;
                     rec_sessionId := new_sessionId v |} ];
     keyGenerator := id + 1;
     sessionIdIndex :=
       match new_sessionId v with
       | JsString s => index_insert (s, id) (sessionIdIndex st)
       | _ => sessionIdIndex st
       end |}.

(** [store.getAll()]. *)
Definition store_getAll (st : ObjectStore) : list StoredRecord :=
  records st.

(** Record with a given primary key. *)
Definition store_get (pk : Z) (st : ObjectStore) : option StoredRecord :=
  find (fun r => rec_id r =? pk) (records st).

(** [store.index('sessionId').getAll(key)]: the index entries whose
    key is [key], in index order, each resolved to its record. *)
Definition index_getAll (key : string) (st : ObjectStore)
  : list StoredRecord :=
  flat_map
    (fun e => if String.eqb (fst e) key
              then match store_get (snd e) st with
                   | Some r => [r]
                   | None => []
                   end
              else [])
    (sessionIdIndex st).

(** The stores IndexedDB can hold: built from the empty one by [add]. *)
Inductive reachable : ObjectStore -> Prop :=
| reach_fresh : reachable createObjectStore
| reach_add v st : reachable st -> reachable (store_add v st).

End IDB.
Export IDB.

(* ================================================================= *)
(** ** The host: persisted database, tab storage, clock, notifications *)

(** How the host answers the next request: [onsuccess]; [onerror];
    [onblocked] / [onabort]; or, for a write, [onsuccess] on the request
    followed by an abort of its transaction at commit, which undoes the
    write ([RolledBack]).  Only a write can be answered in that last
    way: for any other request the entry counts as [Failure]. *)
Inductive Outcome : Type := Success | Failure | Blocked | RolledBack.

(** A thrown or rejected value. *)
Inductive Error : Type :=
| JsError (message : string)
| DOMException (name : string).

(** An open connection ([IDBDatabase]). *)
Record IDBDatabase : Type := mkDb {
  objectStoreNames : list string
}.

Record World : Type := mkWorld {
  database : option ObjectStore;     (* the database 'rrweb', if it exists *)
  sessionStorage : option string;    (* item 'rrweb-session-id' *)
  clock : Z;                         (* Date.now() *)
  entropy : list string;             (* Math.random().toString(36).substring(2) *)
  faults : list Outcome;             (* outcomes of the coming requests *)
  alerts : list string;              (* alert(...) shown so far *)
  downloads : list (string * string) (* files saved: name, content *)
}.

Definition set_database (d : option ObjectStore) (w : World) : World :=
  {| database := d; sessionStorage := sessionStorage w; clock := clock w;
     entropy := entropy w; faults := faults w; alerts := alerts w;
     downloads := downloads w |}.

Definition set_sessionStorage (s : option string) (w : World) : World :=
  {| database := database w; sessionStorage := s; clock := clock w;
     entropy := entropy w; faults := faults w; alerts := alerts w;
     downloads := downloads w |}.

Definition set_entropy (e : list string) (w : World) : World :=
  {| database := database w; sessionStorage := sessionStorage w;
     clock := clock w; entropy := e; faults := faults w;
     alerts := alerts w; downloads := downloads w |}.

Definition push_alert (msg : string) (w : World) : World :=
  {| database := database w; sessionStorage := sessionStorage w;
     clock := clock w; entropy := entropy w; faults := faults w;
     alerts := alerts w ++ [msg]; downloads := downloads w |}.

Definition push_download (file : string * string) (w : World) : World :=
  {| database := database w; sessionStorage := sessionStorage w;
     clock := clock w; entropy := entropy w; faults := faults w;
     alerts := alerts w; downloads := downloads w ++ [file] |}.

(** One turn of the event loop: time passes and the next outcome of the
    fault script is consumed (an exhausted script means success). *)
Definition next_turn (w : World) : Outcome * World :=
  let o := match faults w with [] => Success | o :: _ => o end in
  (o, {| database := database w; sessionStorage := sessionStorage w;
         clock := clock w + 1; entropy := entropy w;
         faults := tl (faults w); alerts := alerts w;
         downloads := downloads w |}).

(** The requests the manager awaits. *)
Inductive Request : Type :=
| DeleteDatabase                 (* indexedDB.deleteDatabase('rrweb') *)
| OpenDatabase                   (* indexedDB.open('rrweb', 1) *)
| StoreAdd (v : NewRecord)       (* objectStore('events').add(v) *)
| StoreGetAll                    (* objectStore('events').getAll() *)
| IndexGetAll (key : string).    (* index('sessionId').getAll(key) *)

Inductive Response : Type :=
| OnSuccess
| OnOpened (db : IDBDatabase)
| OnResult (result : list StoredRecord)
| OnError (e : Error)
| OnBlocked.

(** The host serving a request.

    A deletion that is blocked stays pending: IndexedDB carries it out
    once the connections that block it are closed, and every later
    request on the database waits behind it.  No request can therefore
    see the database between the [blocked] event and the deletion, and
    the model deletes at the [blocked] answer.

    A write answered [RolledBack] fires [onsuccess] on its request and
    leaves the store, key generator included, as it was. *)
Definition serve (req : Request) (w : World) : Response * World :=
  let (o, w1) := next_turn w in
  match req with
  | DeleteDatabase =>
      match o with
      | Success => (OnSuccess, set_database None w1)
      | Blocked => (OnBlocked, set_database None w1)
      | Failure | RolledBack => (OnError (DOMException "UnknownError"), w1)
      end
  | OpenDatabase =>
      match o with
      | Success =>
          (* onupgradeneeded runs only when the database does not exist *)
          let st := match database w1 with
                    | Some st => st
                    | None => createObjectStore
                    end in
          (OnOpened {| objectStoreNames := ["events"] |},
           set_database (Some st) w1)
      | Blocked => (OnBlocked, w1)
      | Failure | RolledBack => (OnError (DOMException "UnknownError"), w1)
      end
  | StoreAdd v =>
      match o, database w1 with
      | Success, Some st => (OnSuccess, set_database (Some (store_add v st)) w1)
      | RolledBack, Some st => (OnSuccess, w1)
      | (Success | RolledBack), None =>
          (OnError (DOMException "InvalidStateError"), w1)
      | Failure, _ => (OnError (DOMException "QuotaExceededError"), w1)
      | Blocked, _ => (OnBlocked, w1)
      end
  | StoreGetAll =>
      match o, database w1 with
      | Success, Some st => (OnResult (store_getAll st), w1)
      | Success, None => (OnError (DOMException "InvalidStateError"), w1)
      | _, _ => (OnError (DOMException "UnknownError"), w1)
      end
  | IndexGetAll key =>
      match o, database w1 with
      | Success, Some st => (OnResult (index_getAll key st), w1)
      | Success, None => (OnError (DOMException "InvalidStateError"), w1)
      | _, _ => (OnError (DOMException "UnknownError"), w1)
      end
  end.

(* ================================================================= *)
(** ** The manager object *)

(** The fields of [class RRWebDBManager]. *)
Record Manager : Type := mkManager {
  db : option IDBDatabase;
  isInitializing : bool;
  isReady : bool;
  eventQueue : list RRWebEvent;
  maxQueueSize : Z
}.

(** The field initialisers of the class. *)
Definition new_RRWebDBManager : Manager :=
  {| db := None; isInitializing := false; isReady := false;
     eventQueue := []; maxQueueSize := 1000 |}.

Definition set_db (d : option IDBDatabase) (m : Manager) : Manager :=
  {| db := d; isInitializing := isInitializing m; isReady := isReady m;
     eventQueue := eventQueue m; maxQueueSize := maxQueueSize m |}.

Definition set_isInitializing (b : bool) (m : Manager) : Manager :=
  {| db := db m; isInitializing := b; isReady := isReady m;
     eventQueue := eventQueue m; maxQueueSize := maxQueueSize m |}.

Definition set_isReady (b : bool) (m : Manager) : Manager :=
  {| db := db m; isInitializing := isInitializing m; isReady := b;
     eventQueue := eventQueue m; maxQueueSize := maxQueueSize m |}.

Definition set_eventQueue (q : list RRWebEvent) (m : Manager) : Manager :=
  {| db := db m; isInitializing := isInitializing m; isReady := isReady m;
     eventQueue := q; maxQueueSize := maxQueueSize m |}.

(** The shared state a method runs against. *)
Definition State : Type := Manager * World.

(* ================================================================= *)
(** ** Asynchronous programs *)

Module Async.

(** A method body: it returns, throws, performs a synchronous step on
    the shared state, or suspends on a request. *)
Inductive Prog (A : Type) : Type :=
| Ret (a : A)
| Throw (e : Error)
| Sync {X : Type} (step : State -> X * State) (k : X -> Prog A)
| Await (req : Request) (k : Response -> Prog A).

Arguments Ret {A} a.
Arguments Throw {A} e.
Arguments Sync {A X} step k.
Arguments Await {A} req k.

Fixpoint bind {A B : Type} (p : Prog A) (f : A -> Prog B) : Prog B :=
  match p with
  | Ret a => f a
  | Throw e => Throw e
  | Sync step k => Sync step (fun x => bind (k x) f)
  | Await req k => Await req (fun r => bind (k r) f)
  end.

(** [try { p } catch (e) { handler e }]. *)
Fixpoint try_catch {A : Type} (p : Prog A) (handler : Error -> Prog A)
  : Prog A :=
  match p with
  | Ret a => Ret a
  | Throw e => handler e
  | Sync step k => Sync step (fun x => try_catch (k x) handler)
  | Await req k => Await req (fun r => try_catch (k r) handler)
  end.

(** How far a call got: settled (resolved with a value or rejected with
    an error), or suspended on a request with the rest of the body. *)
Inductive Status (A : Type) : Type :=
| Settled (r : Error + A)
| Suspended (req : Request) (k : Response -> Prog A).

Arguments Settled {A} r.
Arguments Suspended {A} req k.

(** Run the synchronous prefix of a call. *)
Fixpoint start {A : Type} (p : Prog A) (s : State) : State * Status A :=
  match p with
  | Ret a => (s, Settled (inr a))
  | Throw e => (s, Settled (inl e))
  | Sync step k => let (x, s') := step s in start (k x) s'
  | Await req k => (s, Suspended req k)
  end.

(** Run a call to completion, no other task interleaved: each request
    is answered by the host as soon as it is issued. *)
Fixpoint run {A : Type} (p : Prog A) (s : State) : State * (Error + A) :=
  match p with
  | Ret a => (s, inr a)
  | Throw e => (s, inl e)
  | Sync step k => let (x, s') := step s in run (k x) s'
  | Await req k =>
      let (resp, w') := serve req (snd s) in
      run (k resp) (fst s, w')
  end.

(** State after a call that ran to completion. *)
Definition exec {A : Type} (p : Prog A) (s : State) : State :=
  fst (run p s).

(** Calls issued one after the other, each awaited. *)
Definition exec_all {A : Type} (ps : list (Prog A)) (s : State) : State :=
  fold_left (fun s p => exec p s) ps s.

End Async.
Export Async.

Declare Scope prog_scope.
Delimit Scope prog_scope with prog.
Bind Scope prog_scope with Prog.
Notation "x <- p ;; q" := (bind p (fun x => q))
  (at level 100, p at next level, right associativity) : prog_scope.
Notation "p ;; q" := (bind p (fun _ => q))
  (at level 100, right associativity) : prog_scope.
Local Open Scope prog_scope.

(** Synchronous primitives. *)
Definition this : Prog Manager :=
  Sync (fun s : State => (fst s, s)) Ret.

Definition assign (f : Manager -> Manager) : Prog unit :=
  Sync (fun s : State => (tt, (f (fst s), snd s))) Ret.

Definition Date_now : Prog Z :=
  Sync (fun s : State => (clock (snd s), s)) Ret.

Definition sessionStorage_getItem : Prog (option string) :=
  Sync (fun s : State => (sessionStorage (snd s), s)) Ret.

Definition sessionStorage_setItem (v : string) : Prog unit :=
  Sync (fun s : State => (tt, (fst s, set_sessionStorage (Some v) (snd s)))) Ret.

Definition Math_random_base36 : Prog string :=
  Sync (fun s : State =>
          (hd "" (entropy (snd s)),
           (fst s, set_entropy (tl (entropy (snd s))) (snd s)))) Ret.

Definition alert (msg : string) : Prog unit :=
  Sync (fun s : State => (tt, (fst s, push_alert msg (snd s)))) Ret.

Definition download (name content : string) : Prog unit :=
  Sync (fun s : State => (tt, (fst s, push_download (name, content) (snd s)))) Ret.

(* ================================================================= *)
(** ** The event loop *)

(** A suspended call: the request it awaits and the rest of its body. *)
Record Pending : Type := mkPending {
  awaited : Request;
  resume : Response -> Prog unit
}.

(** The shared state together with the calls in flight, oldest first. *)
Definition System : Type := State * list Pending.

(** What happens next: a caller invokes a method, or the host answers
    the oldest request in flight (requests are answered in the order in
    which they were issued). *)
Inductive Turn : Type :=
| Call (p : Prog unit)
| Complete.

(** Run a body up to its next suspension. *)
Definition enter (p : Prog unit) (sys : System) : System :=
  match start p (fst sys) with
  | (s', Settled _) => (s', snd sys)
  | (s', Suspended req k) =>
      (s', snd sys ++ [{| awaited := req; resume := k |}])
  end.

Definition turn (t : Turn) (sys : System) : System :=
  match t with
  | Call p => enter p sys
  | Complete =>
      match snd sys with
      | [] => sys
      | task :: rest =>
          let (resp, w') := serve (awaited task) (snd (fst sys)) in
          enter (resume task resp) ((fst (fst sys), w'), rest)
      end
  end.

Definition play (turns : list Turn) (sys : System) : System :=
  fold_left (fun sys t => turn t sys) turns sys.

(** Number of requests a call issues when it runs alone. *)
Fixpoint awaits {A} (p : Prog A) (s : State) : nat :=
  match p with
  | Ret _ | Throw _ => 0%nat
  | Sync step k => let (x, s') := step s in awaits (k x) s'
  | Await req k =>
      let (resp, w') := serve req (snd s) in
      S (awaits (k resp) (fst s, w'))
  end.

(* ================================================================= *)
(** ** Host functions used by the export facade *)

(** [JSON.stringify(value, null, space)] and [JSON.parse] on arrays of
    events, and [new Date(ms).toISOString()]. *)
Class Host : Type := {
  JSON_stringify : list RRWebEvent -> Z -> string;
  JSON_parse : string -> option (list RRWebEvent);
  toISOString : Z -> string
}.

(** [s.split(sep)[0]]: the text before the first [sep]. *)
Fixpoint split_head (sep : ascii) (s : string) : string :=
  match s with
  | EmptyString => EmptyString
  | String c rest =>
      if Ascii.eqb c sep then EmptyString else String c (split_head sep rest)
  end.

(* ================================================================= *)
(** ** The methods of [RRWebDBManager] *)

Definition has_value {A : Type} (o : option A) : bool :=
  match o with Some _ => true | None => false end.

Definition push (event : RRWebEvent) (m : Manager) : Manager :=
  set_eventQueue (eventQueue m ++ [event]) m.

(** [deleteDatabase()]: the promise resolves on success, on error and
    when the deletion is blocked. *)
Definition deleteDatabase : Prog unit :=
  Await DeleteDatabase (fun _ => Ret tt).

(** [openDatabase()]. *)
Definition openDatabase : Prog IDBDatabase :=
  Await OpenDatabase
    (fun r =>
       match r with
       | OnOpened database =>
           if existsb (String.eqb "events") (objectStoreNames database)
           then Ret database
           else Throw (JsError "Events object store was not created")
       | OnBlocked => Throw (JsError "Database open blocked")
       | _ => Throw (JsError "Failed to open IndexedDB")
       end).

(** [getSessionId()]. *)
Definition getSessionId : Prog string :=
  sessionId <- sessionStorage_getItem ;;
  match sessionId with
  | Some s =>
      if String.eqb s "" then
        now <- Date_now ;;
        suffix <- Math_random_base36 ;;
        let fresh := String.append "session-"
                       (String.append (number_toString now)
                          (String.append "-" suffix)) in
        sessionStorage_setItem fresh ;;
        Ret fresh
      else Ret s
  | None =>
      now <- Date_now ;;
      suffix <- Math_random_base36 ;;
      let fresh := String.append "session-"
                     (String.append (number_toString now)
                        (String.append "-" suffix)) in
      sessionStorage_setItem fresh ;;
      Ret fresh
  end.

(** [saveEventToDatabase(event)]. *)
Definition saveEventToDatabase (event : RRWebEvent) : Prog unit :=
  m <- this ;;
  match db m with
  | None => Throw (JsError "Database not available")
  | Some _ =>
      now <- Date_now ;;
      sessionId <- getSessionId ;;
      Await (StoreAdd {| new_data := event; new_timestamp := now;
                         new_sessionId := JsString sessionId |})
        (fun r =>
           match r with
           | OnError e => Throw e
           | OnBlocked => Throw (JsError "Transaction aborted")
           | _ => Ret tt
           end)
  end.

(** The [for ... of eventsToProcess] loop of [processEventQueue]: the
    first failed write re-queues that event and breaks out. *)
Fixpoint drain_loop (eventsToProcess : list RRWebEvent) : Prog unit :=
  match eventsToProcess with
  | [] => Ret tt
  | event :: rest =>
      written <- try_catch
                   (saveEventToDatabase event ;; Ret true)
                   (fun _ => assign (push event) ;; Ret false) ;;
      if written then drain_loop rest else Ret tt
  end.

(** [processEventQueue()]. *)
Definition processEventQueue : Prog unit :=
  m <- this ;;
  if Z.of_nat (List.length (eventQueue m)) =? 0 then Ret tt
  else
    let eventsToProcess := eventQueue m in
    assign (set_eventQueue []) ;;
    drain_loop eventsToProcess.

(** [initialize()].  ([db.close()] has no effect on the model, which
    does not track connections.) *)
Definition initialize : Prog unit :=
  m <- this ;;
  if isReady m || isInitializing m then Ret tt
  else
    assign (set_isInitializing true) ;;
    try_catch
      (m <- this ;;
       (if has_value (db m) then assign (set_db None) else Ret tt) ;;
       deleteDatabase ;;
       database <- openDatabase ;;
       assign (set_db (Some database)) ;;
       assign (set_isReady true) ;;
       assign (set_isInitializing false) ;;
       processEventQueue)
      (fun error =>
         assign (set_isInitializing false) ;;
         assign (set_isReady false) ;;
         Throw error).

(** [saveEvent(event)]. *)
Definition saveEvent (event : RRWebEvent) : Prog unit :=
  m <- this ;;
  if negb (isReady m) || negb (has_value (db m)) then
    assign (push event) ;;
    m <- this ;;
    if Z.of_nat (List.length (eventQueue m)) >? maxQueueSize m
    then assign (set_eventQueue (slice (- maxQueueSize m) (eventQueue m)))
    else Ret tt
  else
    try_catch (saveEventToDatabase event)
      (fun _ => assign (push event)).

(** [clearDatabase()]. *)
Definition clearDatabase : Prog unit :=
  assign (set_isReady false) ;;
  assign (set_isInitializing false) ;;
  m <- this ;;
  (if has_value (db m) then assign (set_db None) else Ret tt) ;;
  assign (set_eventQueue []) ;;
  deleteDatabase.

(** [getAllEvents()]. *)
Definition getAllEvents : Prog (list StoredRecord) :=
  m <- this ;;
  if negb (has_value (db m)) || negb (isReady m)
  then Throw (JsError "Database not ready")
  else
    Await StoreGetAll
      (fun r =>
         match r with
         | OnResult result => Ret result
         | OnError e => Throw e
         | _ => Throw (DOMException "UnknownError")
         end).

(** [getEventsBySession(sessionId)]. *)
Definition getEventsBySession (sessionId : string)
  : Prog (list StoredRecord) :=
  m <- this ;;
  if negb (has_value (db m)) || negb (isReady m)
  then Throw (JsError "Database not ready")
  else
    Await (IndexGetAll sessionId)
      (fun r =>
         match r with
         | OnResult result => Ret result
         | OnError e => Throw e
         | _ => Throw (DOMException "UnknownError")
         end).

(** The [onsuccess] callback of [getAllSessions]: the [map] and the two
    [filter]s over the records read. *)
Definition unique_session_ids (events : list StoredRecord) : list string :=
  let mapped := map rec_sessionId events in
  let strings :=
    filter (fun sessionId =>
              truthy sessionId && String.eqb (typeof sessionId) "string")
           mapped in
  filter_indexed (fun sessionId index array => indexOf array sessionId =? index)
                 (as_strings strings).

(** [getAllSessions()]. *)
Definition getAllSessions : Prog (list string) :=
  m <- this ;;
  if negb (has_value (db m)) || negb (isReady m)
  then Throw (JsError "Database not ready")
  else
    Await StoreGetAll
      (fun r =>
         match r with
         | OnResult result => Ret (unique_session_ids result)
         | OnError e => Throw e
         | _ => Throw (DOMException "UnknownError")
         end).

(** The [download] attribute built by [exportSession]. *)
Definition export_filename `{Host} (sessionId : string) (now : Z) : string :=
  String.append "rrweb-session-"
    (String.append (substring 0 15 sessionId)
       (String.append "-"
          (String.append (split_head "T" (toISOString now)) ".json"))).

(** [exportSession(sessionId)]. *)
Definition exportSession `{Host} (sessionId : string) : Prog unit :=
  try_catch
    (events <- getEventsBySession sessionId ;;
     if Z.of_nat (List.length events) =? 0 then
       alert "No events found for this session"
     else
       let rrwebEvents := map rec_data events in
       let blob := JSON_stringify rrwebEvents 2 in
       now <- Date_now ;;
       download (export_filename sessionId now) blob)
    (fun _ => alert "Failed to export session. Check console for details.").

(* ================================================================= *)
(** ** A reference host

    [JSON.stringify] with a gap, [JSON.parse] and [Date.prototype
    .toISOString], written out for the values of this model (numbers
    are integers, strings carry no control characters), to run the
    export facade on concrete stores. *)

Module ReferenceHost.

Definition quote_mark : ascii := ascii_of_nat 34.
Definition backslash : ascii := ascii_of_nat 92.
Definition line_feed : ascii := ascii_of_nat 10.

(** [QuoteJSONString], for strings without control characters. *)
Fixpoint escape (s : string) : string :=
  match s with
  | EmptyString => EmptyString
  | String c rest =>
      if Ascii.eqb c quote_mark || Ascii.eqb c backslash
      then String backslash (String c (escape rest))
      else String c (escape rest)
  end.

Definition quote (s : string) : string :=
  String quote_mark (String.append (escape s) (String quote_mark EmptyString)).

Fixpoint spaces (n : nat) : string :=
  match n with
  | O => EmptyString
  | S n' => String " " (spaces n')
  end.

Definition line_break (indent : nat) : string :=
  String line_feed (spaces indent).

Fixpoint join (sep : string) (parts : list string) : string :=
  match parts with
  | [] => EmptyString
  | [p] => p
  | p :: rest => String.append p (String.append sep (join sep rest))
  end.

(** Brackets around the parts, one part per line, as
    [SerializeJSONArray] and [SerializeJSONObject] lay them out when a
    gap is given. *)
Definition block (opening closing : string) (gap indent : nat)
           (parts : list string) : string :=
  match parts with
  | [] => String.append opening closing
  | _ =>
      String.append opening
        (String.append (line_break (indent + gap))
           (String.append
              (join (String.append "," (line_break (indent + gap))) parts)
              (String.append (line_break indent) closing)))
  end.

(** [SerializeJSONProperty]. *)
Fixpoint print (gap indent : nat) (v : JsValue) {struct v} : string :=
  match v with
  | JsUndefined | JsNull => "null"
  | JsBoolean true => "true"
  | JsBoolean false => "false"
  | JsNumber n => number_toString n
  | JsString s => quote s
  | JsArray elems =>
      block "[" "]" gap indent (map (print gap (indent + gap)%nat) elems)
  | JsObject props =>
      block "{" "}" gap indent
        (flat_map
           (fun p : string * JsValue =>
              let (key, value) := p in
              match value with
              | JsUndefined => []
              | _ =>
                  [String.append (quote key)
                     (String.append ": " (print gap (indent + gap)%nat value))]
              end)
           props)
  end.

(** An event as the object it is. *)
Definition event_value (e : RRWebEvent) : JsValue :=
  JsObject
    ([("type", JsNumber (ev_type e)); ("data", ev_data e);
      ("timestamp", JsNumber (ev_timestamp e))]
       ++ match ev_delay e with
          | Some d => [("delay", JsNumber d)]
          | None => []
          end).

Definition stringify (events : list RRWebEvent) (space : Z) : string :=
  print (Z.to_nat space) 0 (JsArray (map event_value events)).

(** *** Reading JSON text *)

Definition is_space (c : ascii) : bool :=
  Ascii.eqb c " " || Ascii.eqb c line_feed
  || Ascii.eqb c (ascii_of_nat 9) || Ascii.eqb c (ascii_of_nat 13).

Definition digit_of (c : ascii) : option Z :=
  let n := Z.of_nat (nat_of_ascii c) in
  if (48 <=? n) && (n <=? 57) then Some (n - 48) else None.

Fixpoint skip_spaces (s : string) : string :=
  match s with
  | String c rest => if is_space c then skip_spaces rest else s
  | EmptyString => s
  end.

Fixpoint read_digits (acc : Z) (s : string) : Z * string :=
  match s with
  | String c rest =>
      match digit_of c with
      | Some d => read_digits (10 * acc + d) rest
      | None => (acc, s)
      end
  | EmptyString => (acc, s)
  end.

Definition read_natural (s : string) : option (Z * string) :=
  match s with
  | String c _ =>
      match digit_of c with
      | Some _ => Some (read_digits 0 s)
      | None => None
      end
  | EmptyString => None
  end.

Fixpoint read_string_body (s : string) : option (string * string) :=
  match s with
  | EmptyString => None
  | String c rest =>
      if Ascii.eqb c quote_mark then Some (EmptyString, rest)
      else if Ascii.eqb c backslash then
        match rest with
        | String d rest' =>
            if Ascii.eqb d quote_mark || Ascii.eqb d backslash then
              match read_string_body rest' with
              | Some (body, after) => Some (String d body, after)
              | None => None
              end
            else None
        | EmptyString => None
        end
      else
        match read_string_body rest with
        | Some (body, after) => Some (String c body, after)
        | None => None
        end
  end.

Definition read_literal (word : string) (v : JsValue) (s : string)
  : option (JsValue * string) :=
  if String.prefix word s
  then Some (v, substring (String.length word) (String.length s) s)
  else None.

Fixpoint read_value (fuel : nat) (s : string) : option (JsValue * string) :=
  match fuel with
  | O => None
  | S fuel' =>
      match skip_spaces s with
      | EmptyString => None
      | String c rest =>
          if Ascii.eqb c "n" then read_literal "null" JsNull (String c rest)
          else if Ascii.eqb c "t" then
            read_literal "true" (JsBoolean true) (String c rest)
          else if Ascii.eqb c "f" then
            read_literal "false" (JsBoolean false) (String c rest)
          else if Ascii.eqb c quote_mark then
            match read_string_body rest with
            | Some (body, after) => Some (JsString body, after)
            | None => None
            end
          else if Ascii.eqb c "[" then
            match skip_spaces rest with
            | String "]" after => Some (JsArray [], after)
            | _ =>
                match read_elements fuel' rest with
                | Some (elems, after) => Some (JsArray elems, after)
                | None => None
                end
            end
          else if Ascii.eqb c "{" then
            match skip_spaces rest with
            | String "}" after => Some (JsObject [], after)
            | _ =>
                match read_members fuel' rest with
                | Some (props, after) => Some (JsObject props, after)
                | None => None
                end
            end
          else if Ascii.eqb c "-" then
            match read_natural rest with
            | Some (n, after) => Some (JsNumber (- n), after)
            | None => None
            end
          else
            match read_natural (String c rest) with
            | Some (n, after) => Some (JsNumber n, after)
            | None => None
            end
      end
  end
with read_elements (fuel : nat) (s : string)
  : option (list JsValue * string) :=
  match fuel with
  | O => None
  | S fuel' =>
      match read_value fuel' s with
      | Some (v, after) =>
          match skip_spaces after with
          | String "," more =>
              match read_elements fuel' more with
              | Some (vs, rest) => Some (v :: vs, rest)
              | None => None
              end
          | String "]" rest => Some ([v], rest)
          | _ => None
          end
      | None => None
      end
  end
with read_members (fuel : nat) (s : string)
  : option (list (string * JsValue) * string) :=
  match fuel with
  | O => None
  | S fuel' =>
      match skip_spaces s with
      | String c rest =>
          if Ascii.eqb c quote_mark then
            match read_string_body rest with
            | Some (key, after) =>
                match skip_spaces after with
                | String ":" more =>
                    match read_value fuel' more with
                    | Some (v, after') =>
                        match skip_spaces after' with
                        | String "," more' =>
                            match read_members fuel' more' with
                            | Some (ps, rest') => Some ((key, v) :: ps, rest')
                            | None => None
                            end
                        | String "}" rest' => Some ([(key, v)], rest')
                        | _ => None
                        end
                    | None => None
                    end
                | _ => None
                end
            | None => None
            end
          else None
      | EmptyString => None
      end
  end.

Fixpoint property (key : string) (props : list (string * JsValue)) : JsValue :=
  match props with
  | [] => JsUndefined
  | (k, v) :: rest => if String.eqb k key then v else property key rest
  end.

Definition event_of_value (v : JsValue) : option RRWebEvent :=
  match v with
  | JsObject props =>
      match property "type" props, property "timestamp" props with
      | JsNumber type, JsNumber timestamp =>
          match property "delay" props with
          | JsNumber d =>
              Some {| ev_type := type; ev_data := property "data" props;
                      ev_timestamp := timestamp; ev_delay := Some d |}
          | JsUndefined =>
              Some {| ev_type := type; ev_data := property "data" props;
                      ev_timestamp := timestamp; ev_delay := None |}
          | _ => None
          end
      | _, _ => None
      end
  | _ => None
  end.

Fixpoint events_of_values (vs : list JsValue) : option (list RRWebEvent) :=
  match vs with
  | [] => Some []
  | v :: rest =>
      match event_of_value v, events_of_values rest with
      | Some e, Some es => Some (e :: es)
      | _, _ => None
      end
  end.

Definition parse (text : string) : option (list RRWebEvent) :=
  match read_value (2 * String.length text + 2) text with
  | Some (JsArray vs, rest) =>
      match skip_spaces rest with
      | EmptyString => events_of_values vs
      | _ => None
      end
  | _ => None
  end.

(** *** Dates *)

Definition pad (width : nat) (n : Z) : string :=
  let digits := number_toString n in
  String.append (string_of_list_ascii
                   (repeat "0"%char (width - String.length digits)))
                digits.

(** [new Date(ms).toISOString()], for dates of the common era. *)
Definition iso_string (ms : Z) : string :=
  let days := ms / 86400000 in
  let rem := ms mod 86400000 in
  let z := days + 719468 in
  let era := z / 146097 in
  let doe := z - era * 146097 in
  let yoe := (doe - doe / 1460 + doe / 36524 - doe / 146096) / 365 in
  let doy := doe - (365 * yoe + yoe / 4 - yoe / 100) in
  let mp := (5 * doy + 2) / 153 in
  let d := doy - (153 * mp + 2) / 5 + 1 in
  let mo := if mp <? 10 then mp + 3 else mp - 9 in
  let y := yoe + era * 400 + (if mo <=? 2 then 1 else 0) in
  String.append (pad 4 y)
    (String.append "-" (String.append (pad 2 mo)
    (String.append "-" (String.append (pad 2 d)
    (String.append "T" (String.append (pad 2 (rem / 3600000))
    (String.append ":" (String.append (pad 2 (rem / 60000 mod 60))
    (String.append ":" (String.append (pad 2 (rem / 1000 mod 60))
    (String.append "." (String.append (pad 3 (rem mod 1000)) "Z")))))))))))).

#[export] Instance host : Host :=
  {| JSON_stringify := stringify; JSON_parse := parse;
     toISOString := iso_string |}.

End ReferenceHost.

(* ================================================================= *)
(** ** Notions used to state the properties *)

(** *** Stores *)

(** [record.sessionId === sessionId], for a string [sessionId]. *)
Definition has_session (sessionId : string) (r : StoredRecord) : bool :=
  match rec_sessionId r with
  | JsString s => String.eqb s sessionId
  | _ => false
  end.

Definition entry_le (x y : string * Z) : Prop := entry_leb x y = true.

(** What every reachable store satisfies. *)
Record well_formed (st : ObjectStore) : Prop := {
  wf_ids : Forall (fun r => rec_id r < keyGenerator st) (records st);
  wf_ids_sorted : StronglySorted Z.lt (map rec_id (records st));
  wf_index_keys : Forall (fun e => snd e < keyGenerator st) (sessionIdIndex st);
  wf_index_sorted : StronglySorted entry_le (sessionIdIndex st);
  wf_index_getAll :
    forall key, index_getAll key st = filter (has_session key) (records st)
}.

(** *** The write path on the manager and on the host *)

(** The manager redirects writes to the queue. *)
Definition not_ready (m : Manager) : bool :=
  negb (isReady m) || negb (has_value (db m)).

(** The queue branch of [saveEvent], as a function of the manager. *)
Definition enqueue (event : RRWebEvent) (m : Manager) : Manager :=
  let q := eventQueue m ++ [event] in
  if Z.of_nat (List.length q) >? maxQueueSize m
  then set_eventQueue (slice (- maxQueueSize m) q) m
  else set_eventQueue q m.

(** What [getSessionId] returns and leaves behind in the tab storage. *)
Definition needs_fresh_id (w : World) : bool :=
  match sessionStorage w with
  | Some s => String.eqb s ""
  | None => true
  end.

Definition fresh_id (w : World) : string :=
  String.append "session-"
    (String.append (number_toString (clock w))
       (String.append "-" (hd "" (entropy w)))).

Definition current_session (w : World) : string :=
  match sessionStorage w with
  | Some s => if String.eqb s "" then fresh_id w else s
  | None => fresh_id w
  end.

Definition remember_session (w : World) : World :=
  if needs_fresh_id w
  then set_sessionStorage (Some (fresh_id w)) (set_entropy (tl (entropy w)) w)
  else w.

(** The outcome the host has in store for the next request. *)
Definition next_outcome (w : World) : Outcome := fst (next_turn w).

(** The outcomes on which a write is refused: its request fires
    [onerror], or its transaction aborts before the request answers. *)
Definition refuses (o : Outcome) : bool :=
  match o with
  | Failure | Blocked => true
  | Success | RolledBack => false
  end.

(** The record [saveEventToDatabase] hands to the store. *)
Definition record_for (event : RRWebEvent) (w : World) : NewRecord :=
  {| new_data := event; new_timestamp := clock w;
     new_sessionId := JsString (current_session w) |}.

(** The host after a write that succeeded, and after one that failed. *)
Definition host_write (event : RRWebEvent) (w : World) : World :=
  match database w with
  | Some st =>
      set_database (Some (store_add (record_for event w) st))
                   (snd (next_turn (remember_session w)))
  | None => snd (next_turn (remember_session w))
  end.

Definition host_refuse (w : World) : World :=
  snd (next_turn (remember_session w)).

(** The host answers the next [n] requests with success. *)
Definition succeed_next (n : nat) (w : World) : Prop :=
  forall i, (i < n)%nat -> nth i (faults w) Success = Success.

Definition host_write_all (events : list RRWebEvent) (w : World) : World :=
  fold_left (fun w event => host_write event w) events w.

(** The connection the host hands out. *)
Definition connection : IDBDatabase := {| objectStoreNames := ["events"] |}.

(** The host after a successful delete followed by a successful open: a
    fresh, empty store. *)
Definition host_reset (w : World) : World :=
  set_database (Some createObjectStore)
    (snd (next_turn (set_database None (snd (next_turn w))))).

(** The manager once [initialize] has opened the store. *)
Definition opened (m : Manager) : Manager :=
  {| db := Some connection; isInitializing := false; isReady := true;
     eventQueue := eventQueue m; maxQueueSize := maxQueueSize m |}.

(** The last [n] elements of a list. *)
Definition last_n {A} (n : nat) (l : list A) : list A :=
  skipn (List.length l - n) l.

(** Events offered one after the other to a manager that is not ready. *)
Definition enqueue_all (events : list RRWebEvent) (m : Manager) : Manager :=
  fold_left (fun m event => enqueue event m) events m.

(** *** Reading the store *)

(** Scan [l] after the prefix [seen], keeping every string that did not
    occur earlier. *)
Fixpoint first_seen (seen l : list string) : list string :=
  match l with
  | [] => []
  | x :: rest =>
      if existsb (String.eqb x) seen then first_seen (seen ++ [x]) rest
      else x :: first_seen (seen ++ [x]) rest
  end.

(** The session id of a record, when it is a non-empty string. *)
Definition session_string (r : StoredRecord) : option string :=
  match rec_sessionId r with
  | JsString s => if String.eqb s "" then None else Some s
  | _ => None
  end.

(** Position of the first record of a session (the number of records
    when there is none). *)
Fixpoint first_index (sessionId : string) (recs : list StoredRecord) : nat :=
  match recs with
  | [] => 0
  | r :: rest =>
      if has_session sessionId r then 0%nat else S (first_index sessionId rest)
  end.

(** Records as the write path produces them. *)
Definition tagged (r : StoredRecord) : Prop :=
  exists s, rec_sessionId r = JsString s /\ s <> "".

(** The strings that survive the truthiness and [typeof] filter. *)
Definition kept_strings (recs : list StoredRecord) : list string :=
  as_strings
    (filter (fun sessionId =>
               truthy sessionId && String.eqb (typeof sessionId) "string")
            (map rec_sessionId recs)).

(** Outcome of a guarded read: the guard, then the answer of the host. *)
Definition read_result {A} (m : Manager) (w : World)
           (answer : ObjectStore -> A) : State * (Error + A) :=
  if negb (has_value (db m)) || negb (isReady m)
  then ((m, w), inl (JsError "Database not ready"))
  else ((m, snd (next_turn w)),
        match next_outcome w, database w with
        | Success, Some st => inr (answer st)
        | Success, None => inl (DOMException "InvalidStateError")
        | _, _ => inl (DOMException "UnknownError")
        end).

Definition map_result {A B} (f : A -> B) (r : Error + A) : Error + B :=
  match r with
  | inl e => inl e
  | inr a => inr (f a)
  end.

Definition not_found_message : string := "No events found for this session".
Definition failure_message : string :=
  "Failed to export session. Check console for details.".

(** The payloads the store of a host holds, in store order. *)
Definition stored_payloads (w : World) : list RRWebEvent :=
  match database w with
  | Some st => map rec_data (records st)
  | None => []
  end.

(** *** The methods between their suspensions *)

(** The parts of [initialize] that run after its suspensions. *)
Definition initialize_handler (error : Error) : Prog unit :=
  assign (set_isInitializing false) ;;
  assign (set_isReady false) ;;
  Throw error.

Definition initialize_after_open (database : IDBDatabase) : Prog unit :=
  assign (set_db (Some database)) ;;
  assign (set_isReady true) ;;
  assign (set_isInitializing false) ;;
  processEventQueue.

Definition initialize_after_delete : Prog unit :=
  try_catch (database <- openDatabase ;; initialize_after_open database)
            initialize_handler.

(** The manager as [clearDatabase] leaves it before it suspends. *)
Definition cleared (m : Manager) : Manager :=
  {| db := None; isInitializing := false; isReady := false;
     eventQueue := []; maxQueueSize := maxQueueSize m |}.

Definition calls (events : list RRWebEvent) : list Turn :=
  map (fun event => Call (saveEvent event)) events.

(** The manager of a system, its host, and what the store holds. *)
Definition manager_of (sys : System) : Manager := fst (fst sys).
Definition world_of (sys : System) : World := snd (fst sys).

(** *** Sample data *)

Module Samples.

(** An incremental-snapshot event numbered [n]. *)
Definition event (n : Z) : RRWebEvent :=
  {| ev_type := 3; ev_data := JsObject [("source", JsNumber n)];
     ev_timestamp := 1700000000000 + n; ev_delay := None |}.

Definition events_upto (n : nat) : list RRWebEvent :=
  map (fun i => event (Z.of_nat i)) (seq 1 n).

(** A tab in which nothing was recorded yet, and a host that answers
    the coming requests as scripted. *)
Definition tab (script : list Outcome) : World :=
  {| database := None; sessionStorage := None; clock := 1700000000000;
     entropy := ["k3x9q"]; faults := script; alerts := []; downloads := [] |}.

(** A manager that is Ready, and one that was never initialized, with a
    given queue and capacity. *)
Definition ready_with (queue : list RRWebEvent) (capacity : Z) : Manager :=
  {| db := Some connection; isInitializing := false; isReady := true;
     eventQueue := queue; maxQueueSize := capacity |}.

Definition idle_with (queue : list RRWebEvent) (capacity : Z) : Manager :=
  {| db := None; isInitializing := false; isReady := false;
     eventQueue := queue; maxQueueSize := capacity |}.

Definition open_tab (script : list Outcome) : World :=
  set_database (Some createObjectStore) (tab script).

(** A store written to by two tabs in turn: sessions "s1", "s2", "s1". *)
Definition interleaved : ObjectStore :=
  store_add (mkNew (event 3) 1700000000003 (JsString "s1"))
    (store_add (mkNew (event 2) 1700000000002 (JsString "s2"))
       (store_add (mkNew (event 1) 1700000000001 (JsString "s1"))
          createObjectStore)).

Definition interleaved_tab : World :=
  set_database (Some interleaved) (tab []).

End Samples.

(* ================================================================= *)
(** ** The console helpers the recorder installs on [window] *)

(** [window.clearRRWebDB] (as installed with the export helpers): clear,
    then re-initialize; a failure is logged, not rethrown. *)
Definition window_clearRRWebDB : Prog unit :=
  try_catch (clearDatabase ;; initialize) (fun _ => Ret tt).

(** [window.exportRRWebSession(sessionId?)]: an absent or empty id
    lists the sessions on the console instead. *)
Definition window_exportRRWebSession `{Host} (sessionId : option string)
  : Prog unit :=
  try_catch
    (m <- this ;;
     if negb (isReady m) then Ret tt
     else
       match sessionId with
       | Some s =>
           if String.eqb s "" then (sessions <- getAllSessions ;; Ret tt)
           else exportSession s
       | None => sessions <- getAllSessions ;; Ret tt
       end)
    (fun _ => Ret tt).

(** The [for ... of sessions] loop of [window.listRRWebSessions]: one
    read per session, whose result is only logged. *)
Fixpoint count_each (sessions : list string) : Prog unit :=
  match sessions with
  | [] => Ret tt
  | sessionId :: rest =>
      events <- getEventsBySession sessionId ;;
      count_each rest
  end.

(** [window.listRRWebSessions()]. *)
Definition window_listRRWebSessions : Prog (list string) :=
  try_catch
    (m <- this ;;
     if negb (isReady m) then Ret []
     else
       sessions <- getAllSessions ;;
       count_each sessions ;;
       Ret sessions)
    (fun _ => Ret []).

(* ================================================================= *)
(** ** The session buttons of the viewer

    [RRWebViewer] reaches the manager through [window.rrwebDBManager];
    the model takes the recorder as mounted, so the manager is there. *)

(** [exportCurrentSession] of [RRWebViewer]. *)
Definition viewer_exportCurrentSession `{Host} : Prog unit :=
  try_catch
    (m <- this ;;
     if isReady m then
       currentSessionId <- sessionStorage_getItem ;;
       match currentSessionId with
       | Some s =>
           if String.eqb s "" then alert "No current session found"
           else exportSession s
       | None => alert "No current session found"
       end
     else alert "Database not ready. Please wait for database to initialize.")
    (fun _ => alert "Failed to export current session").

(* ================================================================= *)
(** ** What the manager may do to the store *)

(** A record handed to [add] that carries a non-empty string id. *)
Definition tagged_new (v : NewRecord) : Prop :=
  exists s, new_sessionId v = JsString s /\ s <> "".

Definition tags_its_record (req : Request) : Prop :=
  match req with
  | StoreAdd v => tagged_new v
  | _ => True
  end.

(** Programs that reach the persisted store through requests only, and
    whose writes are tagged. *)
Inductive store_safe {A : Type} : Prog A -> Prop :=
| safe_Ret a : store_safe (Ret a)
| safe_Throw e : store_safe (Throw e)
| safe_Sync X (step : State -> X * State) k :
    (forall s, database (snd (snd (step s))) = database (snd s)) ->
    (forall x, store_safe (k x)) ->
    store_safe (Sync step k)
| safe_Await req k :
    tags_its_record req ->
    (forall r, store_safe (k r)) ->
    store_safe (Await req k).

(** The persisted store, when there is one, was built by [add] and
    holds tagged records only. *)
Definition store_ok (w : World) : Prop :=
  forall st, database w = Some st ->
             reachable st /\ Forall tagged (records st).

(** The calls in flight are safe. *)
Definition pending_safe (pending : list Pending) : Prop :=
  Forall (fun task => tags_its_record (awaited task) /\
                      forall r, store_safe (resume task r)) pending.

(** The methods of the manager and the helpers around it, as a caller
    invokes them. *)
Inductive Invocation : Type :=
| InvokeInitialize
| InvokeSaveEvent (event : RRWebEvent)
| InvokeClearDatabase
| InvokeGetAllEvents
| InvokeGetEventsBySession (sessionId : string)
| InvokeGetAllSessions
| InvokeExportSession (sessionId : string)
| InvokeClearRRWebDB
| InvokeExportRRWebSession (sessionId : option string)
| InvokeListRRWebSessions
| InvokeViewerExportCurrentSession.

Definition discard {A} (p : Prog A) : Prog unit := p ;; Ret tt.

Definition invoked `{Host} (i : Invocation) : Prog unit :=
  match i with
  | InvokeInitialize => initialize
  | InvokeSaveEvent event => saveEvent event
  | InvokeClearDatabase => clearDatabase
  | InvokeGetAllEvents => discard getAllEvents
  | InvokeGetEventsBySession sessionId => discard (getEventsBySession sessionId)
  | InvokeGetAllSessions => discard getAllSessions
  | InvokeExportSession sessionId => exportSession sessionId
  | InvokeClearRRWebDB => window_clearRRWebDB
  | InvokeExportRRWebSession sessionId => window_exportRRWebSession sessionId
  | InvokeListRRWebSessions => discard window_listRRWebSessions
  | InvokeViewerExportCurrentSession => viewer_exportCurrentSession
  end.

(** A schedule: calls, and host answers ([None]). *)
Definition scheduled `{Host} (schedule : list (option Invocation))
  : list Turn :=
  map (fun step => match step with
                   | Some i => Call (invoked i)
                   | None => Complete
                   end) schedule.

(* ================================================================= *)
(** ** Notions used to state the further properties *)

(** The manager after a failed initialization: as before the call, but
    without handle. *)
Definition failed (m : Manager) : Manager :=
  {| db := None; isInitializing := false; isReady := false;
     eventQueue := eventQueue m; maxQueueSize := maxQueueSize m |}.

(** The invocations that only read. *)
Definition is_query (i : Invocation) : bool :=
  match i with
  | InvokeInitialize | InvokeSaveEvent _
  | InvokeClearDatabase | InvokeClearRRWebDB => false
  | _ => true
  end.

(** A state reached from manager [m] and host [w] without a change to
    the manager, the store or the session id of the tab, and, when the
    manager was not ready, without a request to the host. *)
Definition untouched (m : Manager) (w : World) (s : State) : Prop :=
  fst s = m /\
  database (snd s) = database w /\
  sessionStorage (snd s) = sessionStorage w /\
  (isReady m = false -> faults (snd s) = faults w).

Definition succeeds (o : Outcome) : bool :=
  match o with
  | Success => true
  | _ => false
  end.

(** A system whose store is in order and whose calls in flight are
    safe. *)
Definition sound (sys : System) : Prop :=
  store_ok (world_of sys) /\ pending_safe (snd sys).

(** A call of [saveEvent event] in flight, issued when the host was
    [w]: it awaits the write of the record built then, and resolves
    when the write succeeds. *)
Definition write_in_flight (w : World) (event : RRWebEvent) (task : Pending)
  : Prop :=
  awaited task = StoreAdd (record_for event w) /\
  forall s, start (resume task OnSuccess) s = (s, Settled (inr tt)).

(* ================================================================= *)
(** * Properties *)

(* ----------------------------------------------------------------- *)
(** ** Lists *)

Lemma StronglySorted_snoc {A} (R : A -> A -> Prop) (l : list A) x :
  StronglySorted R l -> Forall (fun y => R y x) l ->
  StronglySorted R (l ++ [x]).
Proof.
  induction 1 as [|y l Hs IH Hall]; intros Hx; simpl.
  - repeat constructor.
  - inversion Hx; subst. constructor; [now apply IH|].
    apply Forall_app. split; [exact Hall|]. repeat constructor. assumption.
Qed.

(* ----------------------------------------------------------------- *)
(** ** The object store and its index *)

Module IDBFacts.

Lemma compare_refl s : String.compare s s = Eq.
Proof. now apply String_as_OT.cmp_eq. Qed.

Lemma compare_Lt_trans a b c :
  String.compare a b = Lt -> String.compare b c = Lt ->
  String.compare a c = Lt.
Proof.
  intros H1 H2. apply String_as_OT.cmp_lt.
  apply String_as_OT.lt_trans with b; now apply String_as_OT.cmp_lt.
Qed.

Lemma entry_leb_trans x y z :
  entry_leb x y = true -> entry_leb y z = true -> entry_leb x z = true.
Proof.
  destruct x as [a i], y as [b j], z as [c k]. unfold entry_leb. simpl.
  destruct (String.compare a b) eqn:Hab; try discriminate;
    destruct (String.compare b c) eqn:Hbc; try discriminate; intros H1 H2.
  - apply String.compare_eq_iff in Hab, Hbc. subst.
    rewrite compare_refl. lia.
  - apply String.compare_eq_iff in Hab. subst. now rewrite Hbc.
  - apply String.compare_eq_iff in Hbc. subst. now rewrite Hab.
  - now rewrite (compare_Lt_trans _ _ _ Hab Hbc).
Qed.

Lemma entry_leb_total x y : entry_leb x y = false -> entry_leb y x = true.
Proof.
  destruct x as [a i], y as [b j]. unfold entry_leb. simpl.
  rewrite (String.compare_antisym b a).
  destruct (String.compare a b); simpl; try discriminate; lia.
Qed.

Lemma index_insert_In e x idx :
  In x (index_insert e idx) <-> x = e \/ In x idx.
Proof.
  induction idx as [|y rest IH]; simpl.
  - intuition.
  - destruct (entry_leb e y); simpl; rewrite ?IH; intuition.
Qed.

Lemma index_insert_sorted e idx :
  StronglySorted entry_le idx ->
  StronglySorted entry_le (index_insert e idx).
Proof.
  induction 1 as [|y rest Hs IH Hall]; simpl.
  - repeat constructor.
  - destruct (entry_leb e y) eqn:Hey.
    + constructor; [now constructor|].
      constructor; [exact Hey|].
      rewrite Forall_forall in *. intros z Hz.
      apply entry_leb_trans with y; auto. now apply Hall.
    + constructor; [exact IH|].
      rewrite Forall_forall in *. intros z Hz.
      apply index_insert_In in Hz. destruct Hz as [->|Hz].
      * now apply entry_leb_total.
      * now apply Hall.
Qed.

Lemma flat_map_all_nil {A B} (g : A -> list B) l :
  (forall x, In x l -> g x = []) -> flat_map g l = [].
Proof.
  induction l as [|x l IH]; simpl; intros H; [reflexivity|].
  rewrite (H x), IH; auto.
Qed.

(** Inserting an entry that no later entry contributes to: the answers
    of the entries keep their order and the new one comes last. *)
Lemma flat_map_index_insert {B} (g : string * Z -> list B) e idx :
  StronglySorted entry_le idx ->
  (forall x, In x idx -> entry_leb e x = true -> g x = []) ->
  flat_map g (index_insert e idx) = flat_map g idx ++ g e.
Proof.
  induction 1 as [|y rest Hs IH Hall]; intros Hlater; simpl.
  - now rewrite app_nil_r.
  - destruct (entry_leb e y) eqn:Hey.
    + assert (Hnil : flat_map g (y :: rest) = []).
      { apply flat_map_all_nil. intros x [<-|Hx].
        - apply Hlater; simpl; auto.
        - apply Hlater; [now right|].
          apply entry_leb_trans with y; [exact Hey|].
          rewrite Forall_forall in Hall. now apply Hall. }
      simpl in Hnil. simpl. rewrite Hnil. now rewrite app_nil_r.
    + simpl. rewrite IH, app_assoc; [reflexivity|].
      intros x Hx. apply Hlater. now right.
Qed.

Lemma flat_map_index_insert_nil {B} (g : string * Z -> list B) e idx :
  g e = [] -> flat_map g (index_insert e idx) = flat_map g idx.
Proof.
  intros He. induction idx as [|y rest IH]; simpl.
  - now rewrite He.
  - destruct (entry_leb e y); simpl; [now rewrite He|now rewrite IH].
Qed.

Lemma store_get_after_add v st pk :
  pk < keyGenerator st ->
  store_get pk (store_add v st) = store_get pk st.
Proof.
  intros Hpk. unfold store_get, store_add. simpl.
  induction (records st) as [|r recs IH]; simpl.
  - destruct (keyGenerator st =? pk) eqn:E; [lia|reflexivity].
  - destruct (rec_id r =? pk); [reflexivity|exact IH].
Qed.

Lemma store_get_new v st :
  Forall (fun r => rec_id r < keyGenerator st) (records st) ->
  store_get (keyGenerator st) (store_add v st)
  = Some {| rec_id := keyGenerator st; rec_data := new_data v;
            rec_timestamp := new_timestamp v;
            rec_sessionId := new_sessionId v |}.
Proof.
  intros Hids. unfold store_get, store_add. simpl.
  induction Hids as [|r recs Hr _ IH]; simpl.
  - now rewrite Z.eqb_refl.
  - destruct (rec_id r =? keyGenerator st) eqn:E; [lia|exact IH].
Qed.

(** The index answers of the old entries are not disturbed by an add. *)
Lemma old_entries_after_add v st key :
  Forall (fun e => snd e < keyGenerator st) (sessionIdIndex st) ->
  flat_map
    (fun e => if String.eqb (fst e) key
              then match store_get (snd e) (store_add v st) with
                   | Some r => [r] | None => [] end
              else [])
    (sessionIdIndex st)
  = index_getAll key st.
Proof.
  unfold index_getAll. induction 1 as [|e idx He _ IH]; simpl.
  - reflexivity.
  - rewrite IH, store_get_after_add by exact He. reflexivity.
Qed.

Lemma well_formed_fresh : well_formed createObjectStore.
Proof. split; simpl; try constructor. Qed.

Lemma well_formed_add v st : well_formed st -> well_formed (store_add v st).
Proof.
  intros [Hids Hinc Hkeys Hsorted Hget]. split.
  - simpl. apply Forall_app. split.
    + eapply Forall_impl; [|exact Hids]. simpl. intros; lia.
    + repeat constructor. simpl. lia.
  - simpl. rewrite map_app. simpl. apply StronglySorted_snoc; [exact Hinc|].
    rewrite Forall_map. exact Hids.
  - simpl. destruct (new_sessionId v);
      try (eapply Forall_impl; [|exact Hkeys]; simpl; intros; lia).
    rewrite Forall_forall in *. intros e He.
    apply index_insert_In in He. destruct He as [->|He].
    + simpl. lia.
    + specialize (Hkeys e He). lia.
  - simpl. destruct (new_sessionId v); try exact Hsorted.
    now apply index_insert_sorted.
  - intros key. simpl. rewrite filter_app, <- Hget. simpl.
    unfold has_session at 1. simpl. unfold index_getAll at 1. simpl.
    destruct (new_sessionId v) eqn:Hsid;
      try (rewrite old_entries_after_add, app_nil_r by exact Hkeys;
           reflexivity).
    destruct (String.eqb s key) eqn:Hk.
    + (* the new entry has the queried key: it follows all the others *)
      rewrite flat_map_index_insert; [|exact Hsorted|].
      * rewrite old_entries_after_add by exact Hkeys. simpl.
        rewrite Hk, store_get_new by exact Hids. now rewrite Hsid.
      * intros [k pk] Hin Hle. simpl.
        destruct (String.eqb k key) eqn:Hk'; [|reflexivity].
        apply String.eqb_eq in Hk, Hk'. subst k s.
        rewrite Forall_forall in Hkeys. specialize (Hkeys _ Hin).
        unfold entry_leb in Hle. simpl in Hle, Hkeys.
        rewrite compare_refl in Hle. lia.
    + (* another key: the new entry answers nothing *)
      rewrite flat_map_index_insert_nil by (simpl; now rewrite Hk).
      rewrite old_entries_after_add, app_nil_r by exact Hkeys. reflexivity.
Qed.

Lemma reachable_well_formed st : reachable st -> well_formed st.
Proof.
  induction 1; [apply well_formed_fresh|now apply well_formed_add].
Qed.

End IDBFacts.

(* ----------------------------------------------------------------- *)
(** ** Running programs *)

Lemma run_bind {A B} (p : Prog A) (f : A -> Prog B) s :
  run (bind p f) s =
  match run p s with
  | (s', inr a) => run (f a) s'
  | (s', inl e) => (s', inl e)
  end.
Proof.
  revert s. induction p as [a|e|X step k IH|req k IH]; intros s; simpl.
  - reflexivity.
  - reflexivity.
  - destruct (step s) as [x s']. apply IH.
  - destruct (serve req (snd s)) as [resp w']. apply IH.
Qed.

Lemma run_try_catch {A} (p : Prog A) (handler : Error -> Prog A) s :
  run (try_catch p handler) s =
  match run p s with
  | (s', inr a) => (s', inr a)
  | (s', inl e) => run (handler e) s'
  end.
Proof.
  revert s. induction p as [a|e|X step k IH|req k IH]; intros s; simpl.
  - reflexivity.
  - reflexivity.
  - destruct (step s) as [x s']. apply IH.
  - destruct (serve req (snd s)) as [resp w']. apply IH.
Qed.

Lemma run_this m w : run this (m, w) = ((m, w), inr m).
Proof. reflexivity. Qed.

Lemma run_assign f m w : run (assign f) (m, w) = ((f m, w), inr tt).
Proof. reflexivity. Qed.

Lemma run_Date_now m w : run Date_now (m, w) = ((m, w), inr (clock w)).
Proof. reflexivity. Qed.

Lemma run_alert msg m w : run (alert msg) (m, w) = ((m, push_alert msg w), inr tt).
Proof. reflexivity. Qed.

Lemma run_download name content m w :
  run (download name content) (m, w)
  = ((m, push_download (name, content) w), inr tt).
Proof. reflexivity. Qed.

Lemma run_Ret {A} (a : A) s : run (Ret a) s = (s, inr a).
Proof. reflexivity. Qed.

Lemma run_Throw {A} e s : run (@Throw A e) s = (s, inl e).
Proof. reflexivity. Qed.

Lemma run_Await {A} req (k : Response -> Prog A) m w :
  run (Await req k) (m, w) = run (k (fst (serve req w))) (m, snd (serve req w)).
Proof. simpl. destruct (serve req w); reflexivity. Qed.

Create Rewrite HintDb run.
#[global] Hint Rewrite @run_bind @run_try_catch run_this run_assign
  run_Date_now run_alert run_download @run_Ret @run_Throw @run_Await : run.

(** Unfold one method and push [run] through its body. *)
Ltac run_body := repeat (autorewrite with run; cbv beta iota).

(* ----------------------------------------------------------------- *)
(** ** The write path *)

Lemma start_saveEvent_not_ready event m w :
  not_ready m = true ->
  start (saveEvent event) (m, w) = ((enqueue event m, w), Settled (inr tt)).
Proof.
  unfold not_ready, enqueue. intros H. cbn. rewrite H. cbn.
  destruct (_ >? _); reflexivity.
Qed.

Lemma run_saveEvent_not_ready event m w :
  not_ready m = true ->
  run (saveEvent event) (m, w) = ((enqueue event m, w), inr tt).
Proof.
  unfold not_ready, enqueue. intros H. cbn. rewrite H. cbn.
  destruct (_ >? _); reflexivity.
Qed.

Lemma run_getSessionId m w :
  run getSessionId (m, w) = ((m, remember_session w), inr (current_session w)).
Proof.
  unfold remember_session, current_session, needs_fresh_id. cbn.
  destruct (sessionStorage w) as [s|]; cbn; [|reflexivity].
  destruct (String.eqb s ""); reflexivity.
Qed.

Lemma current_session_nonempty w : current_session w <> "".
Proof.
  unfold current_session.
  destruct (sessionStorage w) as [s|]; [|discriminate].
  destruct (String.eqb s "") eqn:E; [discriminate|].
  now apply String.eqb_neq.
Qed.

Lemma next_outcome_remember w :
  fst (next_turn (remember_session w)) = next_outcome w.
Proof.
  unfold remember_session, next_outcome. destruct (needs_fresh_id w); reflexivity.
Qed.

Lemma database_remember w : database (remember_session w) = database w.
Proof. unfold remember_session. destruct (needs_fresh_id w); reflexivity. Qed.

Lemma run_saveEventToDatabase_ok event m w :
  has_value (db m) = true -> has_value (database w) = true ->
  next_outcome w = Success ->
  run (saveEventToDatabase event) (m, w) = ((m, host_write event w), inr tt).
Proof.
  intros Hdb Hst Hok. unfold saveEventToDatabase. run_body.
  destruct (db m); [|discriminate]. run_body.
  rewrite run_getSessionId. run_body.
  unfold serve, host_write. pose proof (next_outcome_remember w) as Ho.
  pose proof (database_remember w) as Hd.
  destruct (next_turn (remember_session w)) as [o w1] eqn:Ht.
  simpl in Ho. subst o. rewrite Hok.
  assert (Hd1 : database w1 = database w).
  { unfold next_turn in Ht. inversion Ht. simpl. exact Hd. }
  rewrite Hd1. destruct (database w); [reflexivity|discriminate].
Qed.

Lemma run_saveEventToDatabase_refused event m w :
  has_value (db m) = true -> refuses (next_outcome w) = true ->
  exists e,
    run (saveEventToDatabase event) (m, w) = ((m, host_refuse w), inl e).
Proof.
  intros Hdb Hko. unfold saveEventToDatabase. run_body.
  destruct (db m); [|discriminate]. run_body.
  rewrite run_getSessionId. run_body.
  unfold serve, host_refuse. pose proof (next_outcome_remember w) as Ho.
  destruct (next_turn (remember_session w)) as [o w1] eqn:Ht.
  simpl in Ho. subst o. simpl.
  destruct (next_outcome w); try discriminate Hko; eexists; reflexivity.
Qed.

Lemma run_saveEventToDatabase_closed event m w :
  db m = None ->
  run (saveEventToDatabase event) (m, w)
  = ((m, w), inl (JsError "Database not available")).
Proof. intros Hdb. cbn. now rewrite Hdb. Qed.

(* ----------------------------------------------------------------- *)
(** ** Draining the queue *)

Lemma faults_remember w : faults (remember_session w) = faults w.
Proof. unfold remember_session. destruct (needs_fresh_id w); reflexivity. Qed.

Lemma faults_host_write event w : faults (host_write event w) = tl (faults w).
Proof.
  unfold host_write. destruct (database w); simpl; now rewrite faults_remember.
Qed.

Lemma database_host_write event w st :
  database w = Some st ->
  database (host_write event w) = Some (store_add (record_for event w) st).
Proof. unfold host_write. now intros ->. Qed.

Lemma has_database_host_write event w :
  has_value (database w) = true ->
  has_value (database (host_write event w)) = true.
Proof.
  destruct (database w) as [st|] eqn:E; [|discriminate]. intros _.
  now rewrite (database_host_write _ _ _ E).
Qed.

Lemma succeed_next_head n w : succeed_next (S n) w -> next_outcome w = Success.
Proof.
  intros H. specialize (H 0%nat ltac:(lia)). unfold next_outcome. simpl.
  destruct (faults w); [reflexivity|exact H].
Qed.

Lemma succeed_next_tail n w w' :
  faults w' = tl (faults w) -> succeed_next (S n) w -> succeed_next n w'.
Proof.
  intros Hf H i Hi. rewrite Hf. specialize (H (S i) ltac:(lia)).
  destruct (faults w); [now destruct i|exact H].
Qed.

Lemma succeed_next_nil n w : faults w = [] -> succeed_next n w.
Proof. intros H i _. rewrite H. now destruct i. Qed.

Lemma drain_loop_cons event rest :
  drain_loop (event :: rest) =
  (written <- try_catch (saveEventToDatabase event ;; Ret true)
                        (fun _ => assign (push event) ;; Ret false) ;;
   if written then drain_loop rest else Ret tt).
Proof. reflexivity. Qed.

(** All writes succeed: the queue content reaches the store in order. *)
Lemma run_drain_loop_ok events : forall m w,
  has_value (db m) = true -> has_value (database w) = true ->
  succeed_next (List.length events) w ->
  run (drain_loop events) (m, w) = ((m, host_write_all events w), inr tt).
Proof.
  induction events as [|event rest IH]; intros m w Hdb Hst Hok.
  - reflexivity.
  - rewrite drain_loop_cons. run_body.
    rewrite run_saveEventToDatabase_ok; auto;
      [|now apply succeed_next_head with (List.length rest)].
    run_body. simpl. apply IH; auto.
    + now apply has_database_host_write.
    + eapply succeed_next_tail; [|exact Hok]. apply faults_host_write.
Qed.

(** A write fails: that event alone goes back to the queue and the loop
    is left; the events behind it are not looked at again. *)
Lemma run_drain_loop_refused written event rest : forall m w,
  has_value (db m) = true -> has_value (database w) = true ->
  succeed_next (List.length written) w ->
  refuses (nth (List.length written) (faults w) Success) = true ->
  run (drain_loop (written ++ event :: rest)) (m, w)
  = ((push event m, host_refuse (host_write_all written w)), inr tt).
Proof.
  induction written as [|first written IH]; intros m w Hdb Hst Hok Hko.
  - simpl app. rewrite drain_loop_cons. run_body.
    destruct (run_saveEventToDatabase_refused event m w Hdb) as [e He].
    { unfold next_outcome. simpl. simpl in Hko.
      destruct (faults w); exact Hko. }
    rewrite He. run_body. reflexivity.
  - simpl app. rewrite drain_loop_cons. run_body.
    rewrite run_saveEventToDatabase_ok; auto;
      [|now apply succeed_next_head with (List.length written)].
    run_body. simpl. apply IH; auto.
    + now apply has_database_host_write.
    + eapply succeed_next_tail; [|exact Hok]. apply faults_host_write.
    + rewrite faults_host_write. simpl in Hko.
      destruct (faults w); [now destruct (List.length written)|exact Hko].
Qed.

Lemma run_processEventQueue_empty m w :
  eventQueue m = [] -> run processEventQueue (m, w) = ((m, w), inr tt).
Proof. intros H. unfold processEventQueue. run_body. now rewrite H. Qed.

Lemma run_processEventQueue_ok m w :
  has_value (db m) = true -> has_value (database w) = true ->
  succeed_next (List.length (eventQueue m)) w ->
  run processEventQueue (m, w)
  = ((set_eventQueue [] m, host_write_all (eventQueue m) w), inr tt).
Proof.
  intros Hdb Hst Hok. unfold processEventQueue. run_body.
  destruct (eventQueue m) as [|event rest] eqn:Hq.
  - simpl. destruct m; simpl in *; now subst.
  - change (Z.of_nat (List.length (event :: rest)) =? 0) with false.
    run_body. now apply run_drain_loop_ok.
Qed.

Lemma run_processEventQueue_refused m w written event rest :
  eventQueue m = written ++ event :: rest ->
  has_value (db m) = true -> has_value (database w) = true ->
  succeed_next (List.length written) w ->
  refuses (nth (List.length written) (faults w) Success) = true ->
  run processEventQueue (m, w)
  = ((set_eventQueue [event] m, host_refuse (host_write_all written w)),
     inr tt).
Proof.
  intros Hq Hdb Hst Hok Hko. unfold processEventQueue. run_body.
  rewrite Hq.
  replace (Z.of_nat (List.length (written ++ event :: rest)) =? 0) with false
    by (symmetry; apply Z.eqb_neq; rewrite length_app; simpl; lia).
  run_body. now rewrite run_drain_loop_refused.
Qed.

(** The payloads a successful drain appends to the store. *)
Lemma host_write_all_records events : forall w st,
  database w = Some st ->
  exists st',
    database (host_write_all events w) = Some st' /\
    map rec_data (records st') = map rec_data (records st) ++ events /\
    keyGenerator st' = keyGenerator st + Z.of_nat (List.length events) /\
    (reachable st -> reachable st').
Proof.
  induction events as [|event rest IH]; intros w st Hst.
  - exists st. simpl. rewrite app_nil_r, Z.add_0_r. auto.
  - simpl. destruct (IH _ _ (database_host_write event w st Hst))
      as (st' & Hdb' & Hrec & Hkey & Hreach).
    exists st'. split; [exact Hdb'|]. split; [|split].
    + rewrite Hrec. simpl. rewrite map_app, <- app_assoc. reflexivity.
    + rewrite Hkey. simpl keyGenerator. lia.
    + intros H. apply Hreach. now constructor.
Qed.

(* ----------------------------------------------------------------- *)
(** ** Initialization *)

Lemma serve_DeleteDatabase_ok w :
  next_outcome w = Success ->
  serve DeleteDatabase w = (OnSuccess, set_database None (snd (next_turn w))).
Proof. unfold next_outcome, serve. destruct (next_turn w) as [o w1]. simpl. now intros ->. Qed.

Lemma serve_OpenDatabase_fresh w :
  next_outcome w = Success -> database w = None ->
  serve OpenDatabase w
  = (OnOpened connection, set_database (Some createObjectStore) (snd (next_turn w))).
Proof.
  unfold next_outcome, serve. intros Ho Hd.
  assert (Hd1 : database (snd (next_turn w)) = None) by exact Hd.
  destruct (next_turn w) as [o w1]. simpl in *. subst o. now rewrite Hd1.
Qed.

Lemma faults_host_reset w : faults (host_reset w) = tl (tl (faults w)).
Proof. reflexivity. Qed.

Lemma start_initialize_noop m w :
  isReady m || isInitializing m = true ->
  start initialize (m, w) = ((m, w), Settled (inr tt)).
Proof. intros H. cbn. now rewrite H. Qed.

Lemma run_initialize_noop m w :
  isReady m || isInitializing m = true ->
  run initialize (m, w) = ((m, w), inr tt).
Proof. intros H. cbn. now rewrite H. Qed.

(** A first (or retried) initialization that meets no failure: fresh
    store, Ready, queue drained into the store. *)
Lemma run_initialize_ok m w :
  isReady m = false -> isInitializing m = false ->
  succeed_next (2 + List.length (eventQueue m)) w ->
  run initialize (m, w)
  = ((set_eventQueue [] (opened m),
      host_write_all (eventQueue m) (host_reset w)), inr tt).
Proof.
  intros Hr Hi Hok. unfold initialize. run_body. rewrite Hr, Hi. simpl orb.
  run_body.
  assert (Hdel : forall m0,
    run (deleteDatabase ;;
         database <- openDatabase ;;
         assign (set_db (Some database)) ;;
         assign (set_isReady true) ;;
         assign (set_isInitializing false) ;;
         processEventQueue) (set_db None (set_isInitializing true m0), w)
    = run processEventQueue (opened m0, host_reset w)).
  { intros m0. unfold deleteDatabase, openDatabase. run_body.
    rewrite serve_DeleteDatabase_ok
      by (now apply succeed_next_head with (S (List.length (eventQueue m)))).
    simpl fst. simpl snd. run_body.
    rewrite serve_OpenDatabase_fresh; [| |reflexivity].
    - simpl fst. simpl snd. run_body. reflexivity.
    - apply succeed_next_head with (List.length (eventQueue m)).
      eapply succeed_next_tail; [|exact Hok]. reflexivity. }
  assert (Hdrain :
    run processEventQueue (opened m, host_reset w)
    = ((set_eventQueue [] (opened m),
        host_write_all (eventQueue m) (host_reset w)), inr tt)).
  { change (eventQueue m) with (eventQueue (opened m)).
    apply run_processEventQueue_ok; try reflexivity.
    simpl eventQueue. intros i Hi'. rewrite faults_host_reset.
    specialize (Hok (S (S i)) ltac:(simpl; lia)).
    destruct (faults w) as [|a [|b l]]; simpl in *; auto; now destruct i. }
  change (db (set_isInitializing true m)) with (db m).
  specialize (Hdel m). rewrite run_bind in Hdel.
  destruct (has_value (db m)) eqn:Hdb; run_body.
  - rewrite Hdel, Hdrain. reflexivity.
  - replace (set_isInitializing true m)
      with (set_db None (set_isInitializing true m))
      by (destruct m as [d ? ? ? ?]; simpl in *; destruct d; [discriminate|reflexivity]).
    rewrite Hdel, Hdrain. reflexivity.
Qed.

(* ----------------------------------------------------------------- *)
(** ** The ingress queue *)

Lemma slice_negative {A} (c : Z) (l : list A) :
  1 <= c -> slice (- c) l = last_n (Z.to_nat c) l.
Proof.
  intros Hc. unfold slice, last_n.
  replace (- c <? 0) with true by (symmetry; apply Z.ltb_lt; lia).
  f_equal. lia.
Qed.

Lemma slice_zero {A} (l : list A) : slice (- 0) l = l.
Proof. unfold slice. simpl. rewrite Z.min_l by lia. reflexivity. Qed.

Lemma length_last_n {A} n (l : list A) :
  List.length (last_n n l) = Nat.min n (List.length l).
Proof. unfold last_n. rewrite length_skipn. lia. Qed.

Lemma last_n_all {A} n (l : list A) :
  (List.length l <= n)%nat -> last_n n l = l.
Proof.
  intros H. unfold last_n. now replace (List.length l - n)%nat with 0%nat by lia.
Qed.

Lemma last_n_snoc {A} n (l : list A) e :
  (1 <= n)%nat -> last_n n (last_n n l ++ [e]) = last_n n (l ++ [e]).
Proof.
  intros Hn. destruct (Nat.le_gt_cases (List.length l) n) as [Hle|Hgt].
  - now rewrite (last_n_all n l).
  - unfold last_n at 1 3. rewrite !length_app, length_last_n. simpl List.length.
    unfold last_n.
    rewrite !skipn_app, !skipn_skipn, length_skipn.
    replace (Nat.min n (List.length l) + 1 - n + (List.length l - n))%nat
      with (List.length l + 1 - n)%nat by lia.
    f_equal. f_equal. lia.
Qed.

Lemma eventQueue_enqueue event m :
  1 <= maxQueueSize m ->
  eventQueue (enqueue event m)
  = last_n (Z.to_nat (maxQueueSize m)) (eventQueue m ++ [event]).
Proof.
  intros Hc. unfold enqueue.
  destruct (_ >? _) eqn:E; simpl.
  - now apply slice_negative.
  - symmetry. apply last_n_all. rewrite Z.gtb_ltb in E.
    apply Z.ltb_ge in E. lia.
Qed.

Lemma other_fields_enqueue event m :
  db (enqueue event m) = db m /\
  isReady (enqueue event m) = isReady m /\
  isInitializing (enqueue event m) = isInitializing m /\
  maxQueueSize (enqueue event m) = maxQueueSize m.
Proof. unfold enqueue. destruct (_ >? _); auto. Qed.

Lemma not_ready_enqueue event m : not_ready (enqueue event m) = not_ready m.
Proof.
  unfold not_ready.
  destruct (other_fields_enqueue event m) as (-> & -> & _). reflexivity.
Qed.

Lemma exec_saveEvents_not_ready events : forall m w,
  not_ready m = true ->
  exec_all (map saveEvent events) (m, w) = (enqueue_all events m, w).
Proof.
  induction events as [|event rest IH]; intros m w H; [reflexivity|].
  simpl. unfold exec. rewrite run_saveEvent_not_ready by exact H. simpl fst.
  apply IH. now rewrite not_ready_enqueue.
Qed.

Lemma other_fields_enqueue_all events : forall m,
  db (enqueue_all events m) = db m /\
  isReady (enqueue_all events m) = isReady m /\
  isInitializing (enqueue_all events m) = isInitializing m /\
  maxQueueSize (enqueue_all events m) = maxQueueSize m.
Proof.
  induction events as [|event rest IH]; intros m; [auto|].
  simpl. destruct (IH (enqueue event m)) as (-> & -> & -> & ->).
  apply other_fields_enqueue.
Qed.

Lemma eventQueue_enqueue_all events : forall m,
  1 <= maxQueueSize m ->
  (events <> [] \/ Z.of_nat (List.length (eventQueue m)) <= maxQueueSize m) ->
  eventQueue (enqueue_all events m)
  = last_n (Z.to_nat (maxQueueSize m)) (eventQueue m ++ events).
Proof.
  induction events as [|event rest IH] using rev_ind; intros m Hc Hq.
  - destruct Hq as [Hq|Hq]; [congruence|].
    rewrite app_nil_r. simpl. symmetry. apply last_n_all. lia.
  - unfold enqueue_all. rewrite fold_left_app. simpl.
    fold (enqueue_all rest m).
    destruct (other_fields_enqueue_all rest m) as (_ & _ & _ & Hmax).
    rewrite eventQueue_enqueue by (rewrite Hmax; exact Hc). rewrite Hmax.
    destruct rest as [|r rest'].
    + reflexivity.
    + rewrite IH; [|exact Hc|left; discriminate].
      rewrite last_n_snoc by lia. now rewrite app_assoc.
Qed.

(** The not-ready path keeps the queue within the bound. *)
Lemma enqueue_bounded event m :
  1 <= maxQueueSize m ->
  Z.of_nat (List.length (eventQueue (enqueue event m))) <= maxQueueSize m.
Proof.
  intros Hc. rewrite eventQueue_enqueue, length_last_n by exact Hc. lia.
Qed.

(* ----------------------------------------------------------------- *)
(** ** Drain after a failed write *)

(** C1 (the code departs from the claim).  Draining the queue
    [event 1; event 2; event 3] with the write of [event 2] failing:
    [event 1] is written, draining stops, and only [event 2] is put
    back; [event 3], which was never handed to the writer, is in
    neither the queue nor the store.  The claim asks for the queue
    [event 2; event 3]. *)
Theorem processEventQueue_drops_events_behind_failure :
  let m := Samples.ready_with
             [Samples.event 1; Samples.event 2; Samples.event 3] 1000 in
  let w := Samples.open_tab [Success; Failure] in
  let s := exec processEventQueue (m, w) in
  eventQueue (fst s) = [Samples.event 2] /\
  stored_payloads (snd s) = [Samples.event 1] /\
  eventQueue (fst s) <> [Samples.event 2; Samples.event 3] /\
  ~ In (Samples.event 3) (eventQueue (fst s) ++ stored_payloads (snd s)).
Proof.
  vm_compute. repeat split; try discriminate.
  intros [H|[H|[]]]; discriminate H.
Qed.

(* ----------------------------------------------------------------- *)
(** ** Idempotent initialization *)

(** C2, as amended.  When an initialization is in flight or complete, a
    further [initialize()] changes nothing, issues no request, and
    resolves at once (it does not wait for the call in flight). *)
Theorem initialize_again_is_immediate_noop (m : Manager) (w : World) :
  isInitializing m = true \/ isReady m = true ->
  start initialize (m, w) = ((m, w), Settled (inr tt)) /\
  run initialize (m, w) = ((m, w), inr tt).
Proof.
  intros H.
  assert (Hor : isReady m || isInitializing m = true)
    by (destruct H as [-> | ->]; [apply orb_true_r|reflexivity]).
  split; [now apply start_initialize_noop|now apply run_initialize_noop].
Qed.

Lemma initialize_again_is_immediate_noop_witness :
  let m := set_isInitializing true new_RRWebDBManager in
  (isInitializing m = true \/ isReady m = true) /\
  start initialize (m, Samples.tab []) = ((m, Samples.tab []), Settled (inr tt)).
Proof.
  split; [left; reflexivity|].
  apply (initialize_again_is_immediate_noop
           (set_isInitializing true new_RRWebDBManager) (Samples.tab [])).
  left; reflexivity.
Defined.

(** C2, the claim as stated fails.  A first [initialize()] is
    suspended on [deleteDatabase]; a second call made then has already
    returned while the manager is still Initializing: the initialization
    in flight has not settled. *)
Lemma initialize_returns_before_first_call_settles :
  let first := start initialize (new_RRWebDBManager, Samples.tab []) in
  let second := start initialize (fst first) in
  (exists k, snd first = Suspended DeleteDatabase k) /\
  snd second = Settled (inr tt) /\
  isInitializing (fst (fst second)) = true /\
  isReady (fst (fst second)) = false.
Proof.
  cbn. repeat split. eexists. reflexivity.
Qed.

(* ----------------------------------------------------------------- *)
(** ** The bound on the queue *)

(** C3 (the code departs from the claim).  A Ready manager whose writes
    fail re-queues each event without applying the bound: after 1001
    failed writes the queue holds 1001 entries, above [maxQueueSize]. *)
Theorem saveEvent_retry_path_exceeds_maxQueueSize :
  let w := Samples.tab (Success :: Success :: repeat Failure 1001) in
  let invocations := initialize :: map saveEvent (Samples.events_upto 1001) in
  let s := exec_all invocations (new_RRWebDBManager, w) in
  isReady (fst s) = true /\
  maxQueueSize (fst s) = 1000 /\
  Z.of_nat (List.length (eventQueue (fst s))) = 1001 /\
  eventQueue (fst s) = Samples.events_upto 1001.
Proof. vm_compute. repeat split. Qed.

(* ----------------------------------------------------------------- *)
(** ** Where the bound does hold *)

(** [saveEventToDatabase] never touches the manager. *)
Lemma run_saveEventToDatabase_manager event m w :
  fst (fst (run (saveEventToDatabase event) (m, w))) = m.
Proof.
  unfold saveEventToDatabase. run_body.
  destruct (db m); [|reflexivity]. run_body.
  rewrite run_getSessionId. run_body.
  destruct (fst (serve _ _)); reflexivity.
Qed.

(** A drain, whatever the host answers, re-queues at most one event. *)
Lemma drain_loop_requeues_at_most_one events : forall m w,
  (List.length (eventQueue (fst (exec (drain_loop events) (m, w))))
   <= List.length (eventQueue m) + 1)%nat.
Proof.
  induction events as [|event rest IH]; intros m w.
  - simpl. lia.
  - unfold exec. rewrite drain_loop_cons. run_body.
    pose proof (run_saveEventToDatabase_manager event m w) as Hm.
    destruct (run (saveEventToDatabase event) (m, w)) as [[m' w'] [e|[]]].
    + simpl in Hm. subst m'. run_body. simpl. rewrite length_app. simpl. lia.
    + simpl in Hm. subst m'. run_body. apply IH.
Qed.

Lemma processEventQueue_requeues_at_most_one m w :
  (List.length (eventQueue (fst (exec processEventQueue (m, w)))) <= 1)%nat.
Proof.
  unfold exec, processEventQueue. run_body.
  destruct (Z.of_nat (List.length (eventQueue m)) =? 0) eqn:E.
  - simpl. apply Z.eqb_eq in E. lia.
  - run_body. apply (drain_loop_requeues_at_most_one (eventQueue m)
                       (set_eventQueue [] m) w).
Qed.

Lemma clearDatabase_empties_queue m w :
  eventQueue (fst (exec clearDatabase (m, w))) = [].
Proof.
  unfold exec, clearDatabase, deleteDatabase. run_body.
  destruct (has_value _); run_body; reflexivity.
Qed.

(* ----------------------------------------------------------------- *)
(** ** Overflowing the queue, then draining *)

Lemma skipn_last_n {A} (c k : nat) (q l : list A) :
  List.length l = (c + k)%nat -> last_n c (q ++ l) = skipn k l.
Proof.
  intros Hl. unfold last_n. rewrite length_app, skipn_app.
  rewrite skipn_all2 by lia. simpl. f_equal. lia.
Qed.

(** C4, as amended (capacity at least 1).  Offering [c + k] events,
    [k > 0], to a manager that is not Ready leaves exactly the last [c]
    of them queued, in order, and touches nothing else; a later drain
    whose writes all succeed appends exactly those [c] payloads to the
    store and empties the queue; in particular an [initialize()] that
    meets no failure ends with a store holding exactly those [c]
    payloads. *)
Theorem overflow_keeps_last_capacity_events
        (c k : Z) (m : Manager) (w : World) (events : list RRWebEvent) :
  1 <= c -> 0 < k ->
  maxQueueSize m = c -> isReady m = false ->
  Z.of_nat (List.length events) = c + k ->
  let s1 := exec_all (map saveEvent events) (m, w) in
  let kept := skipn (Z.to_nat k) events in
  eventQueue (fst s1) = kept /\
  Z.of_nat (List.length kept) = c /\
  snd s1 = w /\
  (forall m2 w2 st,
      eventQueue m2 = kept -> has_value (db m2) = true ->
      database w2 = Some st -> succeed_next (Z.to_nat c) w2 ->
      exists w3 st3,
        run processEventQueue (m2, w2) = ((set_eventQueue [] m2, w3), inr tt) /\
        database w3 = Some st3 /\
        map rec_data (records st3) = map rec_data (records st) ++ kept) /\
  (isInitializing m = false -> succeed_next (2 + Z.to_nat c) w ->
   let s2 := exec initialize s1 in
   isReady (fst s2) = true /\ eventQueue (fst s2) = [] /\
   stored_payloads (snd s2) = kept).
Proof.
  intros Hc Hk Hmax Hready Hlen s1 kept.
  assert (Hnr : not_ready m = true) by (unfold not_ready; now rewrite Hready).
  assert (Hs1 : s1 = (enqueue_all events m, w))
    by (apply exec_saveEvents_not_ready; exact Hnr).
  assert (Hkept : eventQueue (enqueue_all events m) = kept).
  { rewrite eventQueue_enqueue_all.
    - rewrite Hmax. apply skipn_last_n. lia.
    - lia.
    - left. intros ->. simpl in Hlen. lia. }
  assert (Hklen : List.length kept = Z.to_nat c).
  { unfold kept. rewrite length_skipn. lia. }
  rewrite Hs1. simpl fst. simpl snd.
  split; [exact Hkept|]. split; [lia|]. split; [reflexivity|]. split.
  - intros m2 w2 st Hq Hdb Hst Hok.
    destruct (host_write_all_records kept w2 st Hst) as (st3 & Hst3 & Hrec & _).
    exists (host_write_all kept w2), st3. split; [|split; assumption].
    rewrite run_processEventQueue_ok; rewrite ?Hq, ?Hst, ?Hklen; auto.
  - intros Hinit Hok.
    destruct (other_fields_enqueue_all events m) as (_ & Hr' & Hi' & _).
    unfold exec. rewrite run_initialize_ok;
      rewrite ?Hr', ?Hi', ?Hkept, ?Hklen; auto.
    simpl fst. simpl snd. split; [reflexivity|]. split; [reflexivity|].
    destruct (host_write_all_records kept (host_reset w) createObjectStore
                eq_refl) as (st3 & Hst3 & Hrec & _).
    unfold stored_payloads. rewrite Hst3, Hrec. reflexivity.
Qed.

Lemma overflow_keeps_last_capacity_events_witness :
  let m := Samples.idle_with [] 2 in
  let events := Samples.events_upto 3 in
  let s1 := exec_all (map saveEvent events) (m, Samples.tab []) in
  eventQueue (fst s1) = [Samples.event 2; Samples.event 3] /\
  stored_payloads (snd (exec initialize s1))
  = [Samples.event 2; Samples.event 3].
Proof.
  pose proof (overflow_keeps_last_capacity_events 2 1
                (Samples.idle_with [] 2) (Samples.tab [])
                (Samples.events_upto 3)
                ltac:(lia) ltac:(lia) eq_refl eq_refl eq_refl) as H.
  cbv zeta in H. destruct H as (Hq & _ & _ & _ & Hinit).
  split; [exact Hq|].
  apply Hinit; [reflexivity|].
  apply succeed_next_nil. reflexivity.
Defined.

(** C4, the claim as stated fails for the capacity bound 0: the test
    [length > 0] holds after every push, but [slice(-0)] is [slice(0)]
    and keeps the whole array, so nothing is ever discarded. *)
Lemma zero_capacity_never_discards :
  let m := Samples.idle_with [] 0 in
  let s := exec_all (map saveEvent (Samples.events_upto 2)) (m, Samples.tab []) in
  eventQueue (fst s) = [Samples.event 1; Samples.event 2] /\
  Z.of_nat (List.length (eventQueue (fst s))) <> 0.
Proof. vm_compute. split; [reflexivity|discriminate]. Qed.

(* ----------------------------------------------------------------- *)
(** ** Distinct session ids *)

Lemma existsb_eqb_In x l : existsb (String.eqb x) l = true <-> In x l.
Proof.
  rewrite existsb_exists. split.
  - intros (y & Hy & E). apply String.eqb_eq in E. now subst.
  - intros H. exists x. split; [exact H|apply String.eqb_refl].
Qed.

Lemma indexOf_from_absent pre x rest i :
  ~ In x pre -> indexOf_from (pre ++ x :: rest) x i = i + Z.of_nat (List.length pre).
Proof.
  revert i. induction pre as [|y pre IH]; intros i Hx; simpl.
  - rewrite String.eqb_refl. lia.
  - destruct (String.eqb y x) eqn:E.
    + apply String.eqb_eq in E. subst. exfalso. apply Hx. now left.
    + rewrite IH by (intros H; apply Hx; now right). lia.
Qed.

Lemma indexOf_from_present pre x rest i :
  In x pre -> indexOf_from (pre ++ rest) x i < i + Z.of_nat (List.length pre).
Proof.
  revert i. induction pre as [|y pre IH]; intros i Hx; [contradiction|].
  simpl. destruct (String.eqb y x) eqn:E; [lia|].
  destruct Hx as [->|Hx]; [now rewrite String.eqb_refl in E|].
  specialize (IH (i + 1) Hx). lia.
Qed.

Lemma filter_from_first_seen arr : forall pre,
  filter_from (fun sessionId index array => indexOf array sessionId =? index)
              (pre ++ arr) (Z.of_nat (List.length pre)) arr
  = first_seen pre arr.
Proof.
  induction arr as [|x arr IH]; intros pre; [reflexivity|]. simpl.
  replace (pre ++ x :: arr) with ((pre ++ [x]) ++ arr)
    by (now rewrite <- app_assoc).
  replace (Z.of_nat (List.length pre) + 1)
    with (Z.of_nat (List.length (pre ++ [x])))
    by (rewrite length_app; simpl; lia).
  rewrite IH. rewrite <- app_assoc. simpl app. unfold indexOf.
  destruct (existsb (String.eqb x) pre) eqn:E.
  - apply existsb_eqb_In in E.
    pose proof (indexOf_from_present pre x (x :: arr) 0 E) as Hlt.
    destruct (_ =? _) eqn:E'; [apply Z.eqb_eq in E'; lia|reflexivity].
  - assert (Hx : ~ In x pre)
      by (intros H; apply existsb_eqb_In in H; congruence).
    rewrite (indexOf_from_absent pre x arr 0 Hx). simpl.
    now rewrite Z.eqb_refl.
Qed.

Lemma filter_indexed_first_seen arr :
  filter_indexed
    (fun sessionId index array => indexOf array sessionId =? index) arr
  = first_seen [] arr.
Proof. apply (filter_from_first_seen arr []). Qed.

Lemma first_seen_snoc l x : forall seen,
  first_seen seen (l ++ [x])
  = first_seen seen l ++
    (if existsb (String.eqb x) (seen ++ l) then [] else [x]).
Proof.
  induction l as [|y l IH]; intros seen; simpl.
  - rewrite app_nil_r. now destruct (existsb _ seen).
  - rewrite IH, <- app_assoc. simpl app.
    now destruct (existsb (String.eqb y) seen).
Qed.

Lemma first_seen_In s l : forall seen,
  In s (first_seen seen l) <-> In s l /\ ~ In s seen.
Proof.
  induction l as [|y l IH]; intros seen; simpl; [tauto|].
  destruct (existsb (String.eqb y) seen) eqn:E.
  - rewrite IH, in_app_iff. apply existsb_eqb_In in E. simpl. split.
    + tauto.
    + intros [[->|H] Hn]; [tauto|].
      split; [exact H|]. intros [H'|[->|[]]]; tauto.
  - assert (Hy : ~ In y seen)
      by (intros H; apply existsb_eqb_In in H; congruence).
    simpl. rewrite IH, in_app_iff. simpl. split.
    + intros [->|[H Hn]]; tauto.
    + intros [[->|H] Hn]; [now left|].
      destruct (string_dec y s) as [->|Hne]; [now left|right]. tauto.
Qed.

Lemma kept_strings_cons r recs :
  kept_strings (r :: recs)
  = match session_string r with
    | Some s => s :: kept_strings recs
    | None => kept_strings recs
    end.
Proof.
  unfold kept_strings, session_string. simpl.
  destruct (rec_sessionId r) as [| |b|n|s|l|o]; simpl;
    try reflexivity; try (rewrite andb_false_r; reflexivity).
  destruct (String.eqb s ""); reflexivity.
Qed.

Lemma kept_strings_app recs recs' :
  kept_strings (recs ++ recs') = kept_strings recs ++ kept_strings recs'.
Proof.
  induction recs as [|r recs IH]; [reflexivity|].
  simpl app. rewrite !kept_strings_cons, IH.
  now destruct (session_string r).
Qed.

Lemma kept_strings_In s recs :
  In s (kept_strings recs) <->
  exists r, In r recs /\ session_string r = Some s.
Proof.
  induction recs as [|r recs IH].
  - simpl. split; [tauto|]. now intros (? & [] & _).
  - rewrite kept_strings_cons.
    destruct (session_string r) as [s'|] eqn:E; simpl; rewrite IH; split.
    + intros [->|(r' & H & H')]; [exists r; auto|exists r'; auto].
    + intros (r' & [->|H] & H'); [left; congruence|right; eauto].
    + intros (r' & H & H'). eauto.
    + intros (r' & [->|H] & H'); [congruence|eauto].
Qed.

Lemma unique_session_ids_first_seen recs :
  unique_session_ids recs = first_seen [] (kept_strings recs).
Proof. unfold unique_session_ids. apply filter_indexed_first_seen. Qed.

Lemma unique_session_ids_In s recs :
  In s (unique_session_ids recs) <->
  exists r, In r recs /\ session_string r = Some s.
Proof.
  rewrite unique_session_ids_first_seen, first_seen_In, kept_strings_In.
  simpl. tauto.
Qed.

(** Scanning one more record appends its id exactly when that id is a
    non-empty string met for the first time. *)
Lemma unique_session_ids_snoc recs r :
  unique_session_ids (recs ++ [r])
  = unique_session_ids recs ++
    match session_string r with
    | Some s =>
        if existsb (String.eqb s) (unique_session_ids recs) then [] else [s]
    | None => []
    end.
Proof.
  rewrite !unique_session_ids_first_seen, kept_strings_app.
  rewrite (kept_strings_cons r []). change (kept_strings []) with (@nil string).
  destruct (session_string r) as [s|]; [|now rewrite !app_nil_r].
  rewrite first_seen_snoc. f_equal. simpl app.
  destruct (existsb (String.eqb s) (kept_strings recs)) eqn:E1;
    destruct (existsb (String.eqb s) (first_seen [] (kept_strings recs))) eqn:E2;
    try reflexivity; exfalso.
  - apply existsb_eqb_In in E1.
    assert (H : In s (first_seen [] (kept_strings recs)))
      by (apply first_seen_In; auto).
    apply existsb_eqb_In in H. congruence.
  - apply existsb_eqb_In, first_seen_In in E2. destruct E2 as [H _].
    apply existsb_eqb_In in H. congruence.
Qed.

Lemma NoDup_snoc {A} (l : list A) x : NoDup l -> ~ In x l -> NoDup (l ++ [x]).
Proof.
  induction 1 as [|y l Hy Hl IH]; intros Hx; simpl.
  - repeat constructor. tauto.
  - constructor.
    + rewrite in_app_iff. simpl. intros [H|[->|[]]]; [tauto|].
      apply Hx. now left.
    + apply IH. intros H. apply Hx. now right.
Qed.

Lemma unique_session_ids_NoDup recs : NoDup (unique_session_ids recs).
Proof.
  induction recs as [|r recs IH] using rev_ind; [constructor|].
  rewrite unique_session_ids_snoc.
  destruct (session_string r) as [s|]; [|now rewrite app_nil_r].
  destruct (existsb _ _) eqn:E; [now rewrite app_nil_r|].
  apply NoDup_snoc; [exact IH|].
  intros H. apply existsb_eqb_In in H. congruence.
Qed.

Lemma session_string_Some r s :
  session_string r = Some s <-> rec_sessionId r = JsString s /\ s <> "".
Proof.
  unfold session_string.
  destruct (rec_sessionId r) as [| |b|n|s'|l|o];
    try (split; [discriminate|intros [H _]; discriminate H]).
  destruct (String.eqb s' "") eqn:E.
  - apply String.eqb_eq in E. subst. split; [discriminate|].
    intros [H Hn]. congruence.
  - apply String.eqb_neq in E. split.
    + intros H. inversion H. subst. auto.
    + intros [H _]. congruence.
Qed.

Lemma has_session_true s r :
  has_session s r = true <-> rec_sessionId r = JsString s.
Proof.
  unfold has_session. destruct (rec_sessionId r) as [| |b|n|s'|l|o];
    try (split; discriminate).
  rewrite String.eqb_eq. split; congruence.
Qed.

Lemma first_index_present s recs r :
  In r recs -> has_session s r = true ->
  (first_index s recs < List.length recs)%nat /\
  forall recs', first_index s (recs ++ recs') = first_index s recs.
Proof.
  induction recs as [|r0 recs IH]; intros Hin Hs; [contradiction|].
  simpl. destruct (has_session s r0) eqn:E.
  - split; [lia|reflexivity].
  - destruct Hin as [->|Hin]; [congruence|].
    destruct (IH Hin Hs) as [Hlt Happ]. split; [lia|].
    intros recs'. now rewrite Happ.
Qed.

Lemma first_index_absent s recs r :
  (forall r', In r' recs -> has_session s r' = false) ->
  has_session s r = true ->
  first_index s (recs ++ [r]) = List.length recs.
Proof.
  induction recs as [|r0 recs IH]; intros Hno Hs; simpl.
  - now rewrite Hs.
  - rewrite (Hno r0) by now left. f_equal. apply IH; auto.
    intros r' H. apply Hno. now right.
Qed.

(** The ids come out in the order in which their first records lie in
    the store. *)
Lemma unique_session_ids_ordered recs :
  StronglySorted Nat.lt
    (map (fun s => first_index s recs) (unique_session_ids recs)).
Proof.
  induction recs as [|r recs IH] using rev_ind; [constructor|].
  assert (Hold : map (fun s => first_index s (recs ++ [r])) (unique_session_ids recs)
                 = map (fun s => first_index s recs) (unique_session_ids recs)).
  { apply map_ext_in. intros s Hs.
    apply unique_session_ids_In in Hs. destruct Hs as (r' & Hin & Hs).
    apply session_string_Some in Hs. destruct Hs as [Hs _].
    apply has_session_true in Hs.
    now destruct (first_index_present s recs r' Hin Hs) as [_ ->]. }
  rewrite unique_session_ids_snoc.
  destruct (session_string r) as [s|] eqn:Hr;
    [|now rewrite app_nil_r, Hold].
  destruct (existsb _ _) eqn:E; [now rewrite app_nil_r, Hold|].
  rewrite map_app, Hold. simpl map. apply StronglySorted_snoc; [exact IH|].
  apply session_string_Some in Hr. destruct Hr as [Hr Hne].
  rewrite first_index_absent.
  - rewrite Forall_forall. intros i Hi. apply in_map_iff in Hi.
    destruct Hi as (s' & <- & Hs').
    apply unique_session_ids_In in Hs'. destruct Hs' as (r' & Hin & Hs').
    apply session_string_Some in Hs'. destruct Hs' as [Hs' _].
    apply has_session_true in Hs'.
    now destruct (first_index_present s' recs r' Hin Hs') as [Hlt _].
  - intros r' Hin. destruct (has_session s r') eqn:E'; [|reflexivity].
    apply has_session_true in E'.
    assert (H : In s (unique_session_ids recs)).
    { apply unique_session_ids_In. exists r'. split; [exact Hin|].
      apply session_string_Some. auto. }
    apply existsb_eqb_In in H. congruence.
  - now apply has_session_true.
Qed.

(* ----------------------------------------------------------------- *)
(** ** The read requests *)

Lemma database_next_turn w : database (snd (next_turn w)) = database w.
Proof. reflexivity. Qed.

Lemma serve_StoreGetAll w :
  serve StoreGetAll w
  = (match next_outcome w, database w with
     | Success, Some st => OnResult (store_getAll st)
     | Success, None => OnError (DOMException "InvalidStateError")
     | _, _ => OnError (DOMException "UnknownError")
     end, snd (next_turn w)).
Proof.
  unfold serve, next_outcome. rewrite <- (database_next_turn w).
  destruct (next_turn w) as [o w1]. simpl.
  destruct o, (database w1); reflexivity.
Qed.

Lemma serve_IndexGetAll key w :
  serve (IndexGetAll key) w
  = (match next_outcome w, database w with
     | Success, Some st => OnResult (index_getAll key st)
     | Success, None => OnError (DOMException "InvalidStateError")
     | _, _ => OnError (DOMException "UnknownError")
     end, snd (next_turn w)).
Proof.
  unfold serve, next_outcome. rewrite <- (database_next_turn w).
  destruct (next_turn w) as [o w1]. simpl.
  destruct o, (database w1); reflexivity.
Qed.

Lemma run_getAllEvents m w :
  run getAllEvents (m, w) = read_result m w store_getAll.
Proof.
  unfold getAllEvents, read_result. run_body.
  destruct (negb (has_value (db m)) || negb (isReady m)); run_body; [reflexivity|].
  rewrite serve_StoreGetAll. simpl fst. simpl snd.
  destruct (next_outcome w), (database w); reflexivity.
Qed.

Lemma run_getEventsBySession sessionId m w :
  run (getEventsBySession sessionId) (m, w)
  = read_result m w (index_getAll sessionId).
Proof.
  unfold getEventsBySession, read_result. run_body.
  destruct (negb (has_value (db m)) || negb (isReady m)); run_body; [reflexivity|].
  rewrite serve_IndexGetAll. simpl fst. simpl snd.
  destruct (next_outcome w), (database w); reflexivity.
Qed.

Lemma run_getAllSessions m w :
  run getAllSessions (m, w)
  = read_result m w (fun st => unique_session_ids (store_getAll st)).
Proof.
  unfold getAllSessions, read_result. run_body.
  destruct (negb (has_value (db m)) || negb (isReady m)); run_body; [reflexivity|].
  rewrite serve_StoreGetAll. simpl fst. simpl snd.
  destruct (next_outcome w), (database w); reflexivity.
Qed.

(* ----------------------------------------------------------------- *)
(** ** Queries *)

(** C7.  Over any store IndexedDB can hold, [getEventsBySession(s)]
    answers exactly as [getAllEvents()] filtered on [sessionId === s],
    order kept (both reject together when the manager is not ready or
    the host fails the request); when the manager is Ready and the
    request succeeds, both return. *)
Theorem getEventsBySession_filters_getAllEvents
        (sessionId : string) (m : Manager) (w : World) :
  (forall st, database w = Some st -> reachable st) ->
  snd (run (getEventsBySession sessionId) (m, w))
  = map_result (filter (has_session sessionId)) (snd (run getAllEvents (m, w)))
  /\ (isReady m = true -> has_value (db m) = true ->
      has_value (database w) = true -> next_outcome w = Success ->
      exists all,
        snd (run getAllEvents (m, w)) = inr all /\
        snd (run (getEventsBySession sessionId) (m, w))
        = inr (filter (has_session sessionId) all)).
Proof.
  intros Hreach. rewrite run_getAllEvents, run_getEventsBySession.
  unfold read_result. split.
  - destruct (negb (has_value (db m)) || negb (isReady m)); [reflexivity|].
    simpl. destruct (next_outcome w); try reflexivity.
    destruct (database w) as [st|] eqn:Hst; [|reflexivity].
    simpl. f_equal. apply wf_index_getAll.
    apply IDBFacts.reachable_well_formed. now apply Hreach.
  - intros -> Hdb Hst ->. rewrite Hdb. simpl.
    destruct (database w) as [st|] eqn:Hst'; [|discriminate].
    exists (store_getAll st). split; [reflexivity|]. f_equal.
    apply wf_index_getAll.
    apply IDBFacts.reachable_well_formed. now apply Hreach.
Qed.

Lemma getEventsBySession_filters_getAllEvents_witness :
  let m := Samples.ready_with [] 1000 in
  let w := Samples.interleaved_tab in
  (forall st, database w = Some st -> reachable st) /\
  snd (run (getEventsBySession "s1") (m, w))
  = map_result (filter (has_session "s1")) (snd (run getAllEvents (m, w))).
Proof.
  assert (H : forall st,
             database Samples.interleaved_tab = Some st -> reachable st).
  { intros st Hst. inversion Hst. repeat constructor. }
  split; [exact H|].
  exact (proj1 (getEventsBySession_filters_getAllEvents "s1"
                  (Samples.ready_with [] 1000) Samples.interleaved_tab H)).
Defined.

(** C8.  Over a store whose records carry the session ids the write
    path gives them, [getAllSessions()] reads all records and returns
    every session id that occurs, once, in the order of the first
    record of each. *)
Theorem getAllSessions_distinct_in_first_seen_order
        (m : Manager) (w : World) (st : ObjectStore) :
  isReady m = true -> has_value (db m) = true ->
  database w = Some st -> next_outcome w = Success ->
  Forall tagged (records st) ->
  exists ids,
    snd (run getAllSessions (m, w)) = inr ids /\
    ids = unique_session_ids (store_getAll st) /\
    NoDup ids /\
    (forall s, In s ids <->
               exists r, In r (records st) /\ rec_sessionId r = JsString s) /\
    StronglySorted Nat.lt (map (fun s => first_index s (records st)) ids).
Proof.
  intros Hr Hdb Hst Hok Htag. exists (unique_session_ids (store_getAll st)).
  rewrite run_getAllSessions. unfold read_result.
  rewrite Hr, Hdb, Hok, Hst. simpl. split; [reflexivity|].
  split; [reflexivity|]. split; [apply unique_session_ids_NoDup|].
  split; [|apply unique_session_ids_ordered].
  intros s. unfold store_getAll. rewrite unique_session_ids_In. split.
  - intros (r & Hin & Hs). exists r. split; [exact Hin|].
    now apply session_string_Some in Hs.
  - intros (r & Hin & Hs). exists r. split; [exact Hin|].
    apply session_string_Some. split; [exact Hs|].
    rewrite Forall_forall in Htag. destruct (Htag r Hin) as (s' & Hs' & Hne).
    congruence.
Qed.

Lemma getAllSessions_distinct_in_first_seen_order_witness :
  Forall tagged (records Samples.interleaved) /\
  exists ids,
    snd (run getAllSessions
             (Samples.ready_with [] 1000, Samples.interleaved_tab)) = inr ids /\
    ids = ["s1"; "s2"].
Proof.
  assert (H : Forall tagged (records Samples.interleaved)).
  { repeat constructor; eexists; (split; [reflexivity|discriminate]). }
  split; [exact H|].
  destruct (getAllSessions_distinct_in_first_seen_order
              (Samples.ready_with [] 1000) Samples.interleaved_tab
              Samples.interleaved eq_refl eq_refl eq_refl eq_refl H)
    as (ids & Hrun & Hids & _).
  exists ids. split; [exact Hrun|]. rewrite Hids. reflexivity.
Defined.

(** The write path tags every record with a non-empty string. *)
Lemma host_write_tagged event w st st' :
  database w = Some st -> database (host_write event w) = Some st' ->
  Forall tagged (records st) -> Forall tagged (records st').
Proof.
  intros Hst Hst' Htag. rewrite (database_host_write _ _ _ Hst) in Hst'.
  inversion Hst'. simpl. apply Forall_app. split; [exact Htag|].
  repeat constructor. exists (current_session w). split; [reflexivity|].
  apply current_session_nonempty.
Qed.

Lemma host_write_all_tagged events : forall w st,
  database w = Some st -> Forall tagged (records st) ->
  exists st',
    database (host_write_all events w) = Some st' /\
    Forall tagged (records st').
Proof.
  induction events as [|event rest IH]; intros w st Hst Htag.
  - exists st. auto.
  - simpl. apply (IH _ _ (database_host_write event w st Hst)).
    apply (host_write_tagged event w st _ Hst
             (database_host_write event w st Hst) Htag).
Qed.



(* ----------------------------------------------------------------- *)
(** ** Export *)

(** [exportSession] by cases on the read it starts with. *)
Lemma run_exportSession `{Host} sessionId m w :
  run (exportSession sessionId) (m, w)
  = match read_result m w (index_getAll sessionId) with
    | (s, inl _) => ((fst s, push_alert failure_message (snd s)), inr tt)
    | (s, inr events) =>
        if Z.of_nat (List.length events) =? 0
        then ((fst s, push_alert not_found_message (snd s)), inr tt)
        else ((fst s,
               push_download
                 (export_filename sessionId (clock (snd s)),
                  JSON_stringify (map rec_data events) 2) (snd s)), inr tt)
    end.
Proof.
  unfold exportSession. run_body. rewrite run_getEventsBySession.
  destruct (read_result m w (index_getAll sessionId)) as [[m' w'] [e|events]];
    run_body; [reflexivity|].
  destruct (Z.of_nat (List.length events) =? 0); run_body; reflexivity.
Qed.

Lemma filter_none {A} (f : A -> bool) l :
  (forall x, In x l -> f x = false) -> filter f l = [].
Proof.
  induction l as [|x l IH]; intros H; [reflexivity|]. simpl.
  rewrite (H x) by now left. apply IH. intros y Hy. apply H. now right.
Qed.

(** C9.  Exporting a session that has no record (in particular from an
    empty store): the call resolves (it does not reject), the user gets
    exactly one [alert], no file is produced, and the manager and the
    stored records are left as they were; when the manager is Ready and
    the read succeeds the alert is the not-found notice. *)
Theorem exportSession_without_records_notifies `{Host}
        (sessionId : string) (m : Manager) (w : World) :
  (forall st, database w = Some st -> reachable st) ->
  (forall st r, database w = Some st -> In r (records st) ->
                rec_sessionId r <> JsString sessionId) ->
  let outcome := run (exportSession sessionId) (m, w) in
  snd outcome = inr tt /\
  fst (fst outcome) = m /\
  database (snd (fst outcome)) = database w /\
  downloads (snd (fst outcome)) = downloads w /\
  exists msg,
    alerts (snd (fst outcome)) = alerts w ++ [msg] /\
    (isReady m = true -> has_value (db m) = true ->
     has_value (database w) = true -> next_outcome w = Success ->
     msg = not_found_message).
Proof.
  intros Hreach Hnone outcome. unfold outcome. clear outcome.
  rewrite run_exportSession. unfold read_result.
  destruct (negb (has_value (db m)) || negb (isReady m)) eqn:Hguard.
  { simpl. repeat split. exists failure_message. split; [reflexivity|].
    intros Hr Hdb. rewrite Hr, Hdb in Hguard. discriminate. }
  destruct (next_outcome w) eqn:Ho;
    try (simpl; repeat split; exists failure_message;
         split; [reflexivity|]; intros; discriminate).
  destruct (database w) as [st|] eqn:Hst.
  - assert (Hempty : index_getAll sessionId st = []).
    { rewrite wf_index_getAll
        by (apply IDBFacts.reachable_well_formed; now apply Hreach).
      apply filter_none. intros r Hin.
      destruct (has_session sessionId r) eqn:E; [|reflexivity].
      apply has_session_true in E. exfalso. exact (Hnone st r eq_refl Hin E). }
    rewrite Hempty. simpl. repeat split; try (now rewrite Hst).
    exists not_found_message. split; reflexivity.
  - simpl. repeat split; try (now rewrite Hst).
    exists failure_message. split; [reflexivity|]. intros; discriminate.
Qed.

Lemma exportSession_without_records_notifies_witness :
  let m := Samples.ready_with [] 1000 in
  let w := Samples.open_tab [] in
  (forall st, database w = Some st -> reachable st) /\
  (forall st r, database w = Some st -> In r (records st) ->
                rec_sessionId r <> JsString "missing") /\
  alerts (snd (fst (run (exportSession (H := ReferenceHost.host) "missing")
                        (m, w))))
  = [not_found_message].
Proof.
  assert (H1 : forall st,
             database (Samples.open_tab []) = Some st -> reachable st).
  { intros st Hst. inversion Hst. constructor. }
  assert (H2 : forall st r,
             database (Samples.open_tab []) = Some st -> In r (records st) ->
             rec_sessionId r <> JsString "missing").
  { intros st r Hst. inversion Hst. simpl. contradiction. }
  split; [exact H1|]. split; [exact H2|].
  destruct (exportSession_without_records_notifies
              (H := ReferenceHost.host) "missing"
              (Samples.ready_with [] 1000) (Samples.open_tab []) H1 H2)
    as (_ & _ & _ & _ & msg & Halerts & Hmsg).
  rewrite Halerts, Hmsg; reflexivity.
Defined.

(* ----------------------------------------------------------------- *)
(** ** Calls in flight *)

Lemma play_app ts ts' sys : play (ts ++ ts') sys = play ts' (play ts sys).
Proof. unfold play. apply fold_left_app. Qed.

Lemma awaits_bind {A B} (p : Prog A) (f : A -> Prog B) s :
  awaits (bind p f) s
  = (awaits p s + match run p s with
                  | (s', inr a) => awaits (f a) s'
                  | (_, inl _) => 0
                  end)%nat.
Proof.
  revert s. induction p as [a|e|X step k IH|req k IH]; intros s; simpl.
  - reflexivity.
  - reflexivity.
  - destruct (step s) as [x s']. apply IH.
  - destruct (serve req (snd s)) as [resp w']. now rewrite IH.
Qed.

Lemma awaits_try_catch {A} (p : Prog A) (handler : Error -> Prog A) s :
  awaits (try_catch p handler) s
  = (awaits p s + match run p s with
                  | (s', inl e) => awaits (handler e) s'
                  | (_, inr _) => 0
                  end)%nat.
Proof.
  revert s. induction p as [a|e|X step k IH|req k IH]; intros s; simpl.
  - reflexivity.
  - reflexivity.
  - destruct (step s) as [x s']. apply IH.
  - destruct (serve req (snd s)) as [resp w']. now rewrite IH.
Qed.

(** A call alone in the loop: once the host has answered each of its
    requests it has run to completion. *)
Lemma play_to_completion (p : Prog unit) : forall s,
  play (repeat Complete (awaits p s)) (enter p (s, [])) = (exec p s, []).
Proof.
  induction p as [a|e|X step k IH|req k IH]; intros s.
  - reflexivity.
  - reflexivity.
  - unfold enter, exec in *. simpl. specialize (IH (fst (step s)) (snd (step s))).
    destruct (step s) as [x s']. exact IH.
  - unfold enter at 1. simpl start. simpl awaits.
    destruct (serve req (snd s)) as [resp w'] eqn:Hserve.
    simpl repeat. unfold play. simpl fold_left. unfold exec. simpl run.
    rewrite Hserve. apply IH.
Qed.

Lemma awaits_this s : awaits this s = 0%nat.
Proof. reflexivity. Qed.

Lemma awaits_assign f s : awaits (assign f) s = 0%nat.
Proof. reflexivity. Qed.

Lemma awaits_Date_now s : awaits Date_now s = 0%nat.
Proof. reflexivity. Qed.

Lemma awaits_getSessionId m w : awaits getSessionId (m, w) = 0%nat.
Proof.
  unfold getSessionId. cbn.
  destruct (sessionStorage w) as [s|]; cbn; [|reflexivity].
  destruct (String.eqb s ""); reflexivity.
Qed.

Lemma awaits_saveEventToDatabase event m w :
  has_value (db m) = true -> awaits (saveEventToDatabase event) (m, w) = 1%nat.
Proof.
  intros Hdb. unfold saveEventToDatabase.
  rewrite awaits_bind, awaits_this, run_this. cbv beta iota.
  destruct (db m); [|discriminate].
  rewrite awaits_bind, awaits_Date_now, run_Date_now. cbv beta iota.
  rewrite awaits_bind, awaits_getSessionId, run_getSessionId. cbv beta iota.
  simpl. destruct (serve _ _) as [[] ?]; reflexivity.
Qed.

Lemma awaits_drain_loop_ok events : forall m w,
  has_value (db m) = true -> has_value (database w) = true ->
  succeed_next (List.length events) w ->
  awaits (drain_loop events) (m, w) = List.length events.
Proof.
  induction events as [|event rest IH]; intros m w Hdb Hst Hok.
  - reflexivity.
  - rewrite drain_loop_cons, awaits_bind, awaits_try_catch, awaits_bind.
    rewrite awaits_saveEventToDatabase by exact Hdb. run_body.
    rewrite run_saveEventToDatabase_ok; auto;
      [|now apply succeed_next_head with (List.length rest)].
    cbv beta iota. simpl awaits at 1 2. run_body. rewrite IH; auto.
    + now apply has_database_host_write.
    + eapply succeed_next_tail; [|exact Hok]. apply faults_host_write.
Qed.

Lemma awaits_processEventQueue_ok m w :
  has_value (db m) = true -> has_value (database w) = true ->
  succeed_next (List.length (eventQueue m)) w ->
  awaits processEventQueue (m, w) = List.length (eventQueue m).
Proof.
  intros Hdb Hst Hok. unfold processEventQueue.
  rewrite awaits_bind, awaits_this, run_this. cbv beta iota.
  destruct (eventQueue m) as [|event rest] eqn:Hq; [reflexivity|].
  change (Z.of_nat (List.length (event :: rest)) =? 0) with false.
  cbv iota. rewrite awaits_bind, awaits_assign, run_assign. cbv beta iota.
  now apply awaits_drain_loop_ok.
Qed.

(** [clearDatabase] up to its suspension. *)
Lemma start_clearDatabase m w :
  start clearDatabase (m, w)
  = ((cleared m, w), Suspended DeleteDatabase (fun _ => Ret tt)).
Proof. destruct m as [[d|] i r q c]; reflexivity. Qed.

Lemma start_initialize_idle m w :
  isReady m = false -> isInitializing m = false -> db m = None ->
  start initialize (m, w)
  = ((set_isInitializing true m, w),
     Suspended DeleteDatabase (fun _ => initialize_after_delete)).
Proof.
  destruct m as [d i r q c]. simpl. intros -> -> ->. reflexivity.
Qed.

Lemma start_initialize_after_delete m w :
  start initialize_after_delete (m, w)
  = ((m, w),
     Suspended OpenDatabase
       (fun r =>
          try_catch
            (database <-
               match r with
               | OnOpened database =>
                   if existsb (String.eqb "events") (objectStoreNames database)
                   then Ret database
                   else Throw (JsError "Events object store was not created")
               | OnBlocked => Throw (JsError "Database open blocked")
               | _ => Throw (JsError "Failed to open IndexedDB")
               end ;;
             initialize_after_open database)
            initialize_handler)).
Proof. reflexivity. Qed.

Lemma enter_saveEvent_not_ready event m w pending :
  not_ready m = true ->
  enter (saveEvent event) ((m, w), pending) = ((enqueue event m, w), pending).
Proof.
  intros H. unfold enter. simpl fst.
  now rewrite start_saveEvent_not_ready by exact H.
Qed.

Lemma play_calls_not_ready events : forall m w pending,
  not_ready m = true ->
  play (calls events) ((m, w), pending) = ((enqueue_all events m, w), pending).
Proof.
  induction events as [|event rest IH]; intros m w pending H; [reflexivity|].
  unfold play, calls. simpl. rewrite enter_saveEvent_not_ready by exact H.
  apply IH. now rewrite not_ready_enqueue.
Qed.

(** While the events fit, the queue simply grows. *)
Lemma eventQueue_enqueue_all_fits events m :
  1 <= maxQueueSize m ->
  Z.of_nat (List.length (eventQueue m ++ events)) <= maxQueueSize m ->
  eventQueue (enqueue_all events m) = eventQueue m ++ events.
Proof.
  intros Hc Hfit. rewrite eventQueue_enqueue_all.
  - apply last_n_all. lia.
  - exact Hc.
  - right. rewrite length_app in Hfit. lia.
Qed.

Lemma turn_Complete task rest s :
  turn Complete (s, task :: rest)
  = enter (resume task (fst (serve (awaited task) (snd s))))
          ((fst s, snd (serve (awaited task) (snd s))), rest).
Proof. unfold turn. simpl. now destruct (serve _ _). Qed.

Lemma play_cons t ts sys : play (t :: ts) sys = play ts (turn t sys).
Proof. reflexivity. Qed.

(** The rest of [initialize] once the store is open: the flags flip and
    the queue drains. *)
Lemma run_initialize_opened m w :
  run (try_catch (database <- Ret connection ;; initialize_after_open database)
                 initialize_handler) (m, w)
  = run (try_catch processEventQueue initialize_handler)
        (set_isInitializing false (set_isReady true (set_db (Some connection) m)), w).
Proof. unfold initialize_after_open. run_body. reflexivity. Qed.

Lemma awaits_initialize_opened m w :
  awaits (try_catch (database <- Ret connection ;; initialize_after_open database)
                    initialize_handler) (m, w)
  = awaits (try_catch processEventQueue initialize_handler)
           (set_isInitializing false (set_isReady true (set_db (Some connection) m)), w).
Proof. reflexivity. Qed.

(* ----------------------------------------------------------------- *)
(** ** Clearing, then capturing *)

(** Clearing and capturing on a host that does not fail, the captured
    events within the bound of the queue.
    [clearDatabase()] leaves the manager not ready, without handle and
    with an empty queue as soon as it is called, with the destroy
    request still in flight and the persisted store untouched; when the
    destroy is answered the manager is still uninitialized.  A
    [saveEvent] made while the manager is not ready resolves at once,
    appends to the queue and sends nothing to the host.  Events captured
    after the call of [clearDatabase()] -- while the destroy is pending
    ([during_destroy]), before [initialize()] is called ([idle]), and
    while [initialize()] deletes and opens ([during_delete],
    [during_open]) -- are, when they fit in the queue and the host does
    not fail, all written to the fresh store, in order, by the drain
    that ends the re-initialization. *)
Theorem clearDatabase_then_saveEvent_is_queued
        (m : Manager) (w : World)
        (during_destroy idle during_delete during_open : list RRWebEvent) :
  let captured := during_destroy ++ idle ++ during_delete ++ during_open in
  1 <= maxQueueSize m ->
  Z.of_nat (List.length captured) <= maxQueueSize m ->
  succeed_next (3 + List.length captured) w ->
  let sys1 := turn (Call clearDatabase) ((m, w), []) in
  let sys2 := play (calls during_destroy) sys1 in
  let sys3 := play (Complete :: calls idle) sys2 in
  let sys4 := play (Call initialize :: calls during_delete
                      ++ Complete :: calls during_open) sys3 in
  let sys5 := play (Complete :: repeat Complete (List.length captured)) sys4 in
  (forall event m' w',
      not_ready m' = true ->
      start (saveEvent event) (m', w')
      = ((enqueue event m', w'), Settled (inr tt))) /\
  (fst sys1 = (cleared m, w) /\ map awaited (snd sys1) = [DeleteDatabase]) /\
  (eventQueue (manager_of sys2) = during_destroy /\ world_of sys2 = w /\
   map awaited (snd sys2) = [DeleteDatabase]) /\
  (isReady (manager_of sys3) = false /\
   isInitializing (manager_of sys3) = false /\
   db (manager_of sys3) = None /\ snd sys3 = [] /\
   eventQueue (manager_of sys3) = during_destroy ++ idle /\
   database (world_of sys3) = None) /\
  (isReady (manager_of sys4) = false /\
   eventQueue (manager_of sys4) = captured /\
   stored_payloads (world_of sys4) = []) /\
  (snd sys5 = [] /\ isReady (manager_of sys5) = true /\
   eventQueue (manager_of sys5) = [] /\
   stored_payloads (world_of sys5) = captured).
Proof.
  intros captured Hc Hfit Hok sys1 sys2 sys3 sys4 sys5.
  split; [intros; now apply start_saveEvent_not_ready|].
  (* clearDatabase is called *)
  assert (H1 : sys1 = ((cleared m, w),
                       [{| awaited := DeleteDatabase; resume := fun _ => Ret tt |}])).
  { unfold sys1, turn, enter. simpl fst. now rewrite start_clearDatabase. }
  split; [rewrite H1; split; reflexivity|].
  (* events while the destroy is pending *)
  set (mA := enqueue_all during_destroy (cleared m)).
  assert (H2 : sys2 = ((mA, w),
                       [{| awaited := DeleteDatabase; resume := fun _ => Ret tt |}])).
  { unfold sys2. rewrite H1. now apply play_calls_not_ready. }
  assert (HqA : eventQueue mA = during_destroy).
  { unfold mA. rewrite eventQueue_enqueue_all_fits; simpl; auto.
    unfold captured in Hfit. rewrite !length_app in Hfit. lia. }
  destruct (other_fields_enqueue_all during_destroy (cleared m))
    as (HdA & HrA & HiA & HcA). fold mA in HdA, HrA, HiA, HcA.
  simpl in HdA, HrA, HiA, HcA.
  split; [rewrite H2; repeat split; assumption|].
  (* the destroy is answered; events before initialize is called *)
  set (w1 := set_database None (snd (next_turn w))).
  set (mB := enqueue_all idle mA).
  assert (H3 : sys3 = ((mB, w1), [])).
  { unfold sys3. rewrite H2, play_cons, turn_Complete. simpl awaited.
    simpl resume. simpl fst. simpl snd.
    rewrite serve_DeleteDatabase_ok
      by (apply succeed_next_head with (2 + List.length captured)%nat; exact Hok).
    unfold enter. simpl. apply play_calls_not_ready.
    unfold not_ready. now rewrite HrA. }
  assert (HqB : eventQueue mB = during_destroy ++ idle).
  { unfold mB. rewrite eventQueue_enqueue_all_fits; rewrite ?HqA, ?HcA; auto.
    unfold captured in Hfit. rewrite !length_app in *. lia. }
  destruct (other_fields_enqueue_all idle mA) as (HdB & HrB & HiB & HcB).
  fold mB in HdB, HrB, HiB, HcB. rewrite HdA in HdB. rewrite HrA in HrB.
  rewrite HiA in HiB. rewrite HcA in HcB.
  split; [rewrite H3; unfold manager_of, world_of; simpl; repeat split; assumption|].
  (* initialize is called; events while it deletes and while it opens *)
  set (mC := enqueue_all during_delete (set_isInitializing true mB)).
  set (w2 := set_database None (snd (next_turn w1))).
  set (mD := enqueue_all during_open mC).
  set (open_task :=
         {| awaited := OpenDatabase;
            resume := fun r =>
              try_catch
                (database <-
                   match r with
                   | OnOpened database =>
                       if existsb (String.eqb "events") (objectStoreNames database)
                       then Ret database
                       else Throw (JsError "Events object store was not created")
                   | OnBlocked => Throw (JsError "Database open blocked")
                   | _ => Throw (JsError "Failed to open IndexedDB")
                   end ;;
                 initialize_after_open database)
                initialize_handler |}).
  assert (Hok1 : succeed_next (2 + List.length captured) w1).
  { eapply succeed_next_tail; [|exact Hok]. reflexivity. }
  assert (Hok2 : succeed_next (1 + List.length captured) w2).
  { eapply succeed_next_tail; [|exact Hok1]. reflexivity. }
  assert (H4 : sys4 = ((mD, w2), [open_task])).
  { unfold sys4. rewrite H3, play_cons. unfold turn, enter. simpl fst. simpl snd.
    rewrite start_initialize_idle by assumption. simpl app.
    rewrite play_app, play_calls_not_ready
      by (unfold not_ready; simpl; now rewrite HrB).
    fold mC. rewrite play_cons, turn_Complete. simpl awaited. simpl resume.
    simpl fst. simpl snd.
    rewrite serve_DeleteDatabase_ok
      by (apply succeed_next_head with (1 + List.length captured)%nat; exact Hok1).
    unfold enter. simpl fst. simpl snd.
    rewrite start_initialize_after_delete. simpl app.
    fold open_task. fold w2. apply play_calls_not_ready.
    unfold not_ready, mC.
    destruct (other_fields_enqueue_all during_delete (set_isInitializing true mB))
      as (_ & -> & _). simpl. now rewrite HrB. }
  destruct (other_fields_enqueue_all during_delete (set_isInitializing true mB))
    as (HdC & HrC & HiC & HcC). fold mC in HdC, HrC, HiC, HcC.
  simpl in HdC, HrC, HiC, HcC.
  assert (HqC : eventQueue mC = (during_destroy ++ idle) ++ during_delete).
  { unfold mC. rewrite eventQueue_enqueue_all_fits; simpl; rewrite ?HqB, ?HcB; auto.
    unfold captured in Hfit. rewrite !length_app in *. lia. }
  destruct (other_fields_enqueue_all during_open mC) as (HdD & HrD & HiD & HcD).
  fold mD in HdD, HrD, HiD, HcD.
  assert (HqD : eventQueue mD = captured).
  { unfold mD. rewrite eventQueue_enqueue_all_fits; rewrite ?HqC, ?HcC, ?HcB; auto.
    - unfold captured. now rewrite <- !app_assoc.
    - unfold captured in Hfit. rewrite !length_app in *. lia. }
  split.
  { rewrite H4. unfold manager_of, world_of. simpl.
    repeat split; [congruence|exact HqD]. }
  (* the store opens and the queue drains *)
  set (w3 := set_database (Some createObjectStore) (snd (next_turn w2))).
  set (mE := set_isInitializing false (set_isReady true (set_db (Some connection) mD))).
  assert (Hok3 : succeed_next (List.length captured) w3).
  { eapply succeed_next_tail; [|exact Hok2]. reflexivity. }
  assert (Hrun : run (try_catch processEventQueue initialize_handler) (mE, w3)
                 = ((set_eventQueue [] mE, host_write_all captured w3), inr tt)).
  { rewrite run_try_catch, run_processEventQueue_ok; try reflexivity.
    - simpl eventQueue. now rewrite HqD.
    - simpl eventQueue. now rewrite HqD. }
  assert (Hawaits : awaits (try_catch processEventQueue initialize_handler) (mE, w3)
                    = List.length captured).
  { rewrite awaits_try_catch, run_processEventQueue_ok,
      awaits_processEventQueue_ok; try reflexivity;
      simpl eventQueue; rewrite ?HqD; auto. }
  assert (H5 : sys5 = ((set_eventQueue [] mE, host_write_all captured w3), [])).
  { unfold sys5. rewrite H4, play_cons, turn_Complete.
    unfold open_task. cbn [awaited resume fst snd].
    rewrite serve_OpenDatabase_fresh;
      [|apply succeed_next_head with (List.length captured); exact Hok2
       |reflexivity].
    cbn [fst snd]. fold w3.
    change (existsb (String.eqb "events") (objectStoreNames connection))
      with true. cbv iota.
    unfold mE in Hawaits, Hrun |- *.
    rewrite <- Hawaits, <- awaits_initialize_opened.
    rewrite play_to_completion. unfold exec.
    now rewrite run_initialize_opened, Hrun. }
  rewrite H5. unfold manager_of, world_of. simpl.
  repeat split.
  destruct (host_write_all_records captured w3 createObjectStore eq_refl)
    as (st & Hst & Hrec & _).
  unfold stored_payloads. now rewrite Hst, Hrec.
Qed.

Lemma clearDatabase_then_saveEvent_is_queued_witness :
  let m := Samples.ready_with [Samples.event 9] 1000 in
  let w := Samples.interleaved_tab in
  let captured := [Samples.event 1] ++ [Samples.event 2]
                    ++ [Samples.event 3] ++ [Samples.event 4] in
  let sys1 := turn (Call clearDatabase) ((m, w), []) in
  let sys2 := play (calls [Samples.event 1]) sys1 in
  let sys3 := play (Complete :: calls [Samples.event 2]) sys2 in
  let sys4 := play (Call initialize :: calls [Samples.event 3]
                      ++ Complete :: calls [Samples.event 4]) sys3 in
  let sys5 := play (Complete :: repeat Complete (List.length captured)) sys4 in
  1 <= maxQueueSize m /\
  stored_payloads (world_of sys5) = captured.
Proof.
  split; [apply Z.leb_le; reflexivity|].
  apply (clearDatabase_then_saveEvent_is_queued
           (Samples.ready_with [Samples.event 9] 1000)
           Samples.interleaved_tab
           [Samples.event 1] [Samples.event 2]
           [Samples.event 3] [Samples.event 4]).
  - apply Z.leb_le. reflexivity.
  - apply Z.leb_le. reflexivity.
  - apply succeed_next_nil. reflexivity.
Defined.

(** C5 (the code departs from the claim).  [clearDatabase()] is called
    on a Ready manager and, while its destroy request is pending,
    events 1, 2 and 3 are captured: each [saveEvent] resolves at once,
    none is rejected, and the queue holds the three.  The destroy is
    answered, [initialize()] is called, and the host, which accepts the
    write of event 1, refuses the write of event 2.  Once every request
    is answered the manager is Ready, the store holds event 1, the
    queue holds event 2, and event 3 is in neither: the drain took it
    out of the queue and its [break] dropped it.  The claim asks that
    an event captured after the clear be queued and drained, or
    rejected, never lost. *)
Theorem saveEvent_after_clearDatabase_lost_by_failed_drain :
  let sys0 : System :=
    ((Samples.ready_with [] 1000,
      Samples.open_tab [Success; Success; Success; Success; Failure]), []) in
  let cleared_sys := play [Call clearDatabase] sys0 in
  let two_queued :=
    play (calls [Samples.event 1; Samples.event 2]) cleared_sys in
  let queued := play (calls [Samples.event 3]) two_queued in
  let sys := play (Complete :: Call initialize :: repeat Complete 4) queued in
  (isReady (manager_of cleared_sys) = false /\
   map awaited (snd cleared_sys) = [DeleteDatabase]) /\
  (snd (start (saveEvent (Samples.event 3)) (fst two_queued))
   = Settled (inr tt) /\
   eventQueue (manager_of queued)
   = [Samples.event 1; Samples.event 2; Samples.event 3] /\
   map awaited (snd queued) = [DeleteDatabase] /\
   stored_payloads (world_of queued) = []) /\
  (snd sys = [] /\
   isReady (manager_of sys) = true /\
   stored_payloads (world_of sys) = [Samples.event 1] /\
   eventQueue (manager_of sys) = [Samples.event 2] /\
   ~ In (Samples.event 3)
        (eventQueue (manager_of sys) ++ stored_payloads (world_of sys))).
Proof.
  vm_compute. repeat split; try discriminate.
  intros [H|[H|[]]]; discriminate H.
Qed.

(* ----------------------------------------------------------------- *)
(** ** Capture order and store order *)

(** The store is filled in the order in which the writes are issued,
    which need not be the order of capture: an event captured while the
    queue is being drained is written directly, ahead of the queued
    events that the drain has not reached yet.  Here events 1 and 2 are
    queued, event 3 arrives after the drain has issued the write of
    event 1, and the store ends up holding 1, 3, 2. *)
Lemma capture_during_drain_overtakes_queue :
  let turns :=
    [Call (saveEvent (Samples.event 1)); Call (saveEvent (Samples.event 2));
     Call initialize; Complete; Complete;
     Call (saveEvent (Samples.event 3));
     Complete; Complete; Complete] in
  let sys := play turns ((new_RRWebDBManager, Samples.tab []), []) in
  snd sys = [] /\
  eventQueue (manager_of sys) = [] /\
  stored_payloads (world_of sys)
  = [Samples.event 1; Samples.event 3; Samples.event 2].
Proof. vm_compute. repeat split. Qed.

(** C6 (the code departs from the claim).  Events 1 and 2 are
    captured before the manager is initialized and wait in the queue.
    [initialize()] sets [isReady] before it drains the queue, so
    event 3, captured while the write of event 1 is in flight, is
    written at once, ahead of event 2.  All three records carry the
    session id of the tab.  Exporting that session and parsing the file
    gives events 1, 3, 2: every payload is there, field for field, but
    not in the order 1, 2, 3 of their capture. *)
Theorem exportSession_lists_events_out_of_capture_order :
  let turns :=
    [Call (saveEvent (Samples.event 1)); Call (saveEvent (Samples.event 2));
     Call initialize; Complete; Complete;
     Call (saveEvent (Samples.event 3));
     Complete; Complete; Complete] in
  let sys := play turns ((new_RRWebDBManager, Samples.tab []), []) in
  let sessionId := "session-1700000000002-k3x9q" in
  let s' := exec (exportSession (H := ReferenceHost.host) sessionId)
                 (fst sys) in
  snd sys = [] /\
  eventQueue (manager_of sys) = [] /\
  snd (run getAllSessions (fst sys)) = inr [sessionId] /\
  exists name content,
    downloads (snd s') = [(name, content)] /\
    ReferenceHost.parse content
    = Some [Samples.event 1; Samples.event 3; Samples.event 2] /\
    ReferenceHost.parse content
    <> Some [Samples.event 1; Samples.event 2; Samples.event 3].
Proof.
  split; [reflexivity|]. split; [reflexivity|].
  split; [vm_compute; reflexivity|].
  eexists. eexists. split; [vm_compute; reflexivity|].
  split; [vm_compute; reflexivity|]. vm_compute. discriminate.
Qed.

(* ================================================================= *)
(** * Further properties *)

(* ----------------------------------------------------------------- *)
(** ** Initialization, success and failure *)

Lemma current_session_remember w :
  current_session (remember_session w) = current_session w.
Proof.
  unfold remember_session, needs_fresh_id, current_session.
  destruct (sessionStorage w) as [s|] eqn:E.
  - destruct (String.eqb s "") eqn:E'; [|now rewrite E, E'].
    simpl. reflexivity.
  - simpl. reflexivity.
Qed.

Lemma sessionStorage_remember w :
  sessionStorage (remember_session w) = Some (current_session w).
Proof.
  unfold remember_session, needs_fresh_id, current_session.
  destruct (sessionStorage w) as [s|] eqn:E.
  - destruct (String.eqb s "") eqn:E'; [reflexivity|exact E].
  - reflexivity.
Qed.

(** Once a write was attempted the tab keeps its session id. *)
Lemma current_session_kept w w' :
  sessionStorage w' = Some (current_session w) ->
  current_session w' = current_session w.
Proof.
  intros H. unfold current_session at 1. rewrite H.
  destruct (String.eqb (current_session w) "") eqn:E; [|reflexivity].
  apply String.eqb_eq in E. now destruct (current_session_nonempty w).
Qed.

Lemma current_session_host_write event w :
  current_session (host_write event w) = current_session w.
Proof.
  apply current_session_kept. unfold host_write.
  destruct (database w); simpl; apply sessionStorage_remember.
Qed.

Lemma current_session_host_refuse w :
  current_session (host_refuse w) = current_session w.
Proof.
  apply current_session_kept. unfold host_refuse. simpl.
  apply sessionStorage_remember.
Qed.

(** The records a run of successful writes appends: consecutive ids
    from the key generator on, the payloads in order, one session id. *)
Lemma host_write_all_appends events : forall w st,
  database w = Some st ->
  exists st' added,
    database (host_write_all events w) = Some st' /\
    records st' = records st ++ added /\
    keyGenerator st' = keyGenerator st + Z.of_nat (List.length events) /\
    map rec_data added = events /\
    map rec_id added
    = map (fun i => keyGenerator st + Z.of_nat i) (seq 0 (List.length events)) /\
    Forall (fun r => rec_sessionId r = JsString (current_session w)) added.
Proof.
  induction events as [|event rest IH]; intros w st Hst.
  - exists st, []. simpl. rewrite app_nil_r, Z.add_0_r.
    repeat split; auto.
  - simpl host_write_all.
    destruct (IH _ _ (database_host_write event w st Hst))
      as (st' & added & Hdb & Hrec & Hkey & Hdata & Hids & Hsid).
    simpl records in Hrec. simpl keyGenerator in Hkey, Hids.
    exists st',
      ({| rec_id := keyGenerator st; rec_data := event;
          rec_timestamp := clock w;
          rec_sessionId := JsString (current_session w) |} :: added).
    split; [exact Hdb|]. split; [|split; [|split; [|split]]].
    + rewrite Hrec, <- app_assoc. reflexivity.
    + rewrite Hkey. simpl List.length. lia.
    + simpl. now rewrite Hdata.
    + simpl. rewrite Hids, <- seq_shift, map_map. f_equal; [lia|].
      apply map_ext. intros i. lia.
    + constructor; [reflexivity|].
      now rewrite current_session_host_write in Hsid.
Qed.

(** X1.  An [initialize()] on a manager that is neither ready nor
    initializing, which meets no failure, ends Ready with a fresh store
    that holds exactly the queued events, in queue order, under the ids
    1, 2, ..., all tagged with the session id of the tab; the queue is
    empty and the key generator stands behind the last id. *)
Theorem initialize_writes_queue_under_consecutive_ids (m : Manager) (w : World) :
  isReady m = false -> isInitializing m = false ->
  succeed_next (2 + List.length (eventQueue m)) w ->
  exists m' w' st sid,
    run initialize (m, w) = ((m', w'), inr tt) /\
    isReady m' = true /\ isInitializing m' = false /\
    has_value (db m') = true /\ eventQueue m' = [] /\
    database w' = Some st /\
    map rec_data (records st) = eventQueue m /\
    map rec_id (records st)
    = map (fun i => 1 + Z.of_nat i) (seq 0 (List.length (eventQueue m))) /\
    keyGenerator st = 1 + Z.of_nat (List.length (eventQueue m)) /\
    sid <> "" /\
    Forall (fun r => rec_sessionId r = JsString sid) (records st).
Proof.
  intros Hr Hi Hok.
  destruct (host_write_all_appends (eventQueue m) (host_reset w)
              createObjectStore eq_refl)
    as (st & added & Hdb & Hrec & Hkey & Hdata & Hids & Hsid).
  simpl in Hrec, Hkey, Hids. subst added.
  exists (set_eventQueue [] (opened m)),
         (host_write_all (eventQueue m) (host_reset w)), st,
         (current_session (host_reset w)).
  split; [now apply run_initialize_ok|].
  repeat split; auto. apply current_session_nonempty.
Qed.

Lemma initialize_writes_queue_under_consecutive_ids_witness :
  exists m' w' st,
    run initialize (Samples.idle_with (Samples.events_upto 3) 1000,
                    Samples.tab [])
    = ((m', w'), inr tt) /\
    database w' = Some st /\
    map rec_id (records st) = [1; 2; 3].
Proof.
  destruct (initialize_writes_queue_under_consecutive_ids
              (Samples.idle_with (Samples.events_upto 3) 1000)
              (Samples.tab []) eq_refl eq_refl
              ltac:(apply succeed_next_nil; reflexivity))
    as (m' & w' & st & sid & Hrun & _ & _ & _ & _ & Hst & _ & Hids & _).
  exists m', w', st. split; [exact Hrun|]. split; [exact Hst|exact Hids].
Defined.

Lemma serve_DeleteDatabase_world w :
  snd (serve DeleteDatabase w)
  = match next_outcome w with
    | Success | Blocked => set_database None (snd (next_turn w))
    | Failure | RolledBack => snd (next_turn w)
    end.
Proof.
  unfold serve, next_outcome. destruct (next_turn w) as [o w1]. simpl.
  now destruct o.
Qed.

Lemma serve_OpenDatabase_refused w :
  next_outcome w <> Success ->
  snd (serve OpenDatabase w) = snd (next_turn w) /\
  (fst (serve OpenDatabase w) = OnBlocked \/
   exists e, fst (serve OpenDatabase w) = OnError e).
Proof.
  unfold serve, next_outcome. destruct (next_turn w) as [o w1]. simpl.
  destruct o; [congruence| | |]; intros _; (split; [reflexivity|]);
    [right; eexists; reflexivity|left; reflexivity
    |right; eexists; reflexivity].
Qed.

Lemma serve_OpenDatabase_existing w st :
  next_outcome w = Success -> database w = Some st ->
  serve OpenDatabase w
  = (OnOpened connection, set_database (Some st) (snd (next_turn w))).
Proof.
  unfold next_outcome, serve. intros Ho Hd.
  assert (Hd1 : database (snd (next_turn w)) = Some st) by exact Hd.
  destruct (next_turn w) as [o w1]. simpl in *. subst o. now rewrite Hd1.
Qed.

(** [initialize] from the idle state, up to the answer to [open]. *)
Lemma run_initialize_idle m w :
  isReady m = false -> isInitializing m = false ->
  run initialize (m, w)
  = run (try_catch
           (database <-
              match fst (serve OpenDatabase (snd (serve DeleteDatabase w))) with
              | OnOpened database =>
                  if existsb (String.eqb "events") (objectStoreNames database)
                  then Ret database
                  else Throw (JsError "Events object store was not created")
              | OnBlocked => Throw (JsError "Database open blocked")
              | _ => Throw (JsError "Failed to open IndexedDB")
              end ;;
            initialize_after_open database)
           initialize_handler)
        (set_db None (set_isInitializing true m),
         snd (serve OpenDatabase (snd (serve DeleteDatabase w)))).
Proof.
  intros Hr Hi.
  assert (Hm : (if has_value (db m) then set_db None (set_isInitializing true m)
                else set_isInitializing true m)
               = set_db None (set_isInitializing true m)).
  { destruct m as [[d|] i r q c]; reflexivity. }
  unfold initialize, deleteDatabase, openDatabase. run_body.
  rewrite Hr, Hi. simpl orb. run_body.
  change (db (set_isInitializing true m)) with (db m).
  destruct (has_value (db m)); run_body; [reflexivity|].
  rewrite <- Hm. reflexivity.
Qed.


(** X2.  When the open request of an [initialize()] fails or is
    blocked, the call rejects with an error, both flags are off again,
    no handle is kept and the queue is exactly what it was; nothing is
    lost: a later [initialize()] that meets no failure writes that
    queue to the store. *)
Theorem initialize_open_failure_keeps_queue (m : Manager) (w : World) :
  isReady m = false -> isInitializing m = false ->
  next_outcome (snd (serve DeleteDatabase w)) <> Success ->
  exists message w',
    run initialize (m, w) = ((failed m, w'), inl (JsError message)) /\
    forall w2,
      succeed_next (2 + List.length (eventQueue m)) w2 ->
      exists m3 w3,
        run initialize (failed m, w2) = ((m3, w3), inr tt) /\
        isReady m3 = true /\ eventQueue m3 = [] /\
        stored_payloads w3 = eventQueue m.
Proof.
  intros Hr Hi Hko.
  destruct (serve_OpenDatabase_refused _ Hko) as [Hw Hresp].
  assert (Hrun : exists message,
             run initialize (m, w)
             = ((failed m, snd (next_turn (snd (serve DeleteDatabase w)))),
                inl (JsError message))).
  { rewrite run_initialize_idle by assumption. rewrite Hw.
    destruct Hresp as [-> | [e ->]]; eexists; unfold initialize_handler;
      run_body; reflexivity. }
  destruct Hrun as [message Hrun].
  exists message, (snd (next_turn (snd (serve DeleteDatabase w)))).
  split; [exact Hrun|].
  intros w2 Hok.
  exists (set_eventQueue [] (opened (failed m))),
         (host_write_all (eventQueue m) (host_reset w2)).
  split; [now apply (run_initialize_ok (failed m) w2)|].
  split; [reflexivity|]. split; [reflexivity|].
  destruct (host_write_all_records (eventQueue m) (host_reset w2)
              createObjectStore eq_refl) as (st & Hst & Hrec & _).
  unfold stored_payloads. now rewrite Hst, Hrec.
Qed.

Lemma initialize_open_failure_keeps_queue_witness :
  exists message w',
    run initialize (Samples.idle_with (Samples.events_upto 2) 1000,
                    Samples.tab [Success; Blocked])
    = ((failed (Samples.idle_with (Samples.events_upto 2) 1000), w'),
       inl (JsError message)).
Proof.
  destruct (initialize_open_failure_keeps_queue
              (Samples.idle_with (Samples.events_upto 2) 1000)
              (Samples.tab [Success; Blocked]) eq_refl eq_refl
              ltac:(discriminate))
    as (message & w' & Hrun & _).
  exists message, w'. exact Hrun.
Defined.

(** X3.  A deletion that fails (its request fires [onerror]) does not
    stop [initialize()]: the store that was there is opened as it is,
    its records are kept, and the queue is appended to them. *)
Theorem initialize_survives_failed_deletion
        (m : Manager) (w : World) (st : ObjectStore) :
  isReady m = false -> isInitializing m = false ->
  database w = Some st ->
  next_outcome w = Failure ->
  succeed_next (1 + List.length (eventQueue m)) (snd (next_turn w)) ->
  exists m' w' st',
    run initialize (m, w) = ((m', w'), inr tt) /\
    isReady m' = true /\ isInitializing m' = false /\
    eventQueue m' = [] /\
    database w' = Some st' /\
    map rec_data (records st')
    = map rec_data (records st) ++ eventQueue m.
Proof.
  intros Hr Hi Hst Hko Hok.
  set (w1 := snd (next_turn w)).
  assert (Hw1 : snd (serve DeleteDatabase w) = w1).
  { rewrite serve_DeleteDatabase_world. now rewrite Hko. }
  set (w2 := set_database (Some st) (snd (next_turn w1))).
  assert (Hopen : serve OpenDatabase w1 = (OnOpened connection, w2)).
  { apply serve_OpenDatabase_existing; [|exact Hst].
    now apply succeed_next_head with (List.length (eventQueue m)). }
  destruct (host_write_all_records (eventQueue m) w2 st eq_refl)
    as (st' & Hst' & Hrec & _).
  exists (set_eventQueue [] (opened m)), (host_write_all (eventQueue m) w2), st'.
  split; [|repeat split; assumption].
  rewrite run_initialize_idle by assumption. rewrite Hw1, Hopen.
  cbn [fst snd].
  change (existsb (String.eqb "events") (objectStoreNames connection)) with true.
  cbv iota. rewrite (run_initialize_opened (set_db None (set_isInitializing true m)) w2).
  rewrite run_try_catch.
  change (set_isInitializing false
            (set_isReady true
               (set_db (Some connection) (set_db None (set_isInitializing true m)))))
    with (opened m).
  rewrite (run_processEventQueue_ok (opened m) w2); try reflexivity.
  simpl eventQueue. eapply succeed_next_tail; [|exact Hok]. reflexivity.
Qed.

Lemma initialize_survives_failed_deletion_witness :
  exists m' w' st',
    run initialize (Samples.idle_with (Samples.events_upto 1) 1000,
                    set_database (Some Samples.interleaved)
                                 (Samples.tab [Failure]))
    = ((m', w'), inr tt) /\
    database w' = Some st' /\
    map rec_data (records st')
    = [Samples.event 1; Samples.event 2; Samples.event 3; Samples.event 1].
Proof.
  destruct (initialize_survives_failed_deletion
              (Samples.idle_with (Samples.events_upto 1) 1000)
              (set_database (Some Samples.interleaved) (Samples.tab [Failure]))
              Samples.interleaved eq_refl eq_refl eq_refl eq_refl
              ltac:(apply succeed_next_nil; reflexivity))
    as (m' & w' & st' & Hrun & _ & _ & _ & Hst & Hrec).
  exists m', w', st'. split; [exact Hrun|]. split; [exact Hst|exact Hrec].
Defined.

(* ----------------------------------------------------------------- *)
(** ** Capturing an event *)

Lemma database_host_refuse w : database (host_refuse w) = database w.
Proof. unfold host_refuse. simpl. now rewrite database_remember. Qed.

Lemma stored_payloads_host_refuse w :
  stored_payloads (host_refuse w) = stored_payloads w.
Proof. unfold stored_payloads. now rewrite database_host_refuse. Qed.


Lemma serve_StoreAdd_remembered v w :
  serve (StoreAdd v) (remember_session w)
  = match next_outcome w, database w with
    | Success, Some st =>
        (OnSuccess,
         set_database (Some (store_add v st)) (host_refuse w))
    | RolledBack, Some st => (OnSuccess, host_refuse w)
    | (Success | RolledBack), None =>
        (OnError (DOMException "InvalidStateError"), host_refuse w)
    | Failure, _ => (OnError (DOMException "QuotaExceededError"), host_refuse w)
    | Blocked, _ => (OnBlocked, host_refuse w)
    end.
Proof.
  unfold serve, host_refuse. rewrite <- (next_outcome_remember w).
  rewrite <- (database_remember w).
  rewrite <- (database_next_turn (remember_session w)).
  destruct (next_turn (remember_session w)) as [o w1]. reflexivity.
Qed.

(** The three ways [saveEventToDatabase] can end: the record is stored;
    the promise resolves on [onsuccess] and the transaction is then
    rolled back, the rejection from [onabort] coming too late; or the
    promise rejects. *)
Lemma run_saveEventToDatabase_cases event m w :
  (has_value (db m) = true /\ has_value (database w) = true /\
   next_outcome w = Success /\
   run (saveEventToDatabase event) (m, w) = ((m, host_write event w), inr tt))
  \/
  (has_value (db m) = true /\ has_value (database w) = true /\
   next_outcome w = RolledBack /\
   run (saveEventToDatabase event) (m, w) = ((m, host_refuse w), inr tt))
  \/
  (exists e w',
      run (saveEventToDatabase event) (m, w) = ((m, w'), inl e) /\
      stored_payloads w' = stored_payloads w).
Proof.
  destruct (db m) as [d|] eqn:Hdb.
  - assert (Hv : has_value (db m) = true) by now rewrite Hdb.
    assert (Hrun : run (saveEventToDatabase event) (m, w)
                   = run (match fst (serve (StoreAdd (record_for event w))
                                           (remember_session w)) with
                          | OnError e => Throw e
                          | OnBlocked => Throw (JsError "Transaction aborted")
                          | _ => Ret tt
                          end)
                         (m, snd (serve (StoreAdd (record_for event w))
                                        (remember_session w)))).
    { unfold saveEventToDatabase. run_body. rewrite Hdb. run_body.
      rewrite run_getSessionId. run_body. reflexivity. }
    rewrite Hrun, serve_StoreAdd_remembered.
    destruct (next_outcome w) eqn:Ho, (database w) as [st|] eqn:Hst;
      cbn [fst snd]; run_body;
      try (right; right; eexists; eexists; split; [reflexivity|];
           apply stored_payloads_host_refuse).
    + left. repeat split; auto. unfold host_write, host_refuse.
      now rewrite Hst.
    + right. left. repeat split; auto.
  - right. right. exists (JsError "Database not available"), w.
    split; [now apply run_saveEventToDatabase_closed|reflexivity].
Qed.

Lemma run_saveEvent_ready event m w :
  not_ready m = false ->
  run (saveEvent event) (m, w)
  = match run (saveEventToDatabase event) (m, w) with
    | (s, inr _) => (s, inr tt)
    | (s, inl _) => ((push event (fst s), snd s), inr tt)
    end.
Proof.
  unfold not_ready. intros H. unfold saveEvent. run_body. rewrite H.
  run_body.
  destruct (run (saveEventToDatabase event) (m, w)) as [[m' w'] [e|[]]];
    run_body; reflexivity.
Qed.

(** X4.  [saveEvent] never rejects, whatever the state of the manager
    and whatever the host answers, and it leaves the handle, the two
    flags and the capacity of the manager as they were: the capture
    callback cannot be broken by the store. *)
Theorem saveEvent_never_rejects (event : RRWebEvent) (m : Manager) (w : World) :
  let outcome := run (saveEvent event) (m, w) in
  snd outcome = inr tt /\
  db (fst (fst outcome)) = db m /\
  isReady (fst (fst outcome)) = isReady m /\
  isInitializing (fst (fst outcome)) = isInitializing m /\
  maxQueueSize (fst (fst outcome)) = maxQueueSize m.
Proof.
  destruct (not_ready m) eqn:Hnr.
  - cbv zeta. rewrite run_saveEvent_not_ready by exact Hnr. simpl.
    split; [reflexivity|]. apply other_fields_enqueue.
  - cbv zeta. rewrite run_saveEvent_ready by exact Hnr.
    destruct (run_saveEventToDatabase_cases event m w)
      as [(_ & _ & _ & ->) | [(_ & _ & _ & ->) | (e & w' & -> & _)]];
      simpl; auto.
Qed.




(* ----------------------------------------------------------------- *)
(** ** The session id of the tab *)

(** X7.  [getSessionId] answers a non-empty id, stores it in the tab,
    and from then on keeps answering that id without touching anything;
    an id already stored in the tab is answered as it is. *)
Theorem getSessionId_is_stable (m : Manager) (w : World) :
  exists sid w1,
    run getSessionId (m, w) = ((m, w1), inr sid) /\
    sid <> "" /\
    sessionStorage w1 = Some sid /\
    run getSessionId (m, w1) = ((m, w1), inr sid) /\
    (forall s, sessionStorage w = Some s -> s <> "" -> sid = s /\ w1 = w).
Proof.
  exists (current_session w), (remember_session w).
  split; [apply run_getSessionId|].
  split; [apply current_session_nonempty|].
  split; [apply sessionStorage_remember|]. split.
  - rewrite run_getSessionId, current_session_remember. f_equal. f_equal.
    unfold remember_session at 1, needs_fresh_id.
    rewrite sessionStorage_remember.
    destruct (String.eqb (current_session w) "") eqn:E; [|reflexivity].
    apply String.eqb_eq in E. now destruct (current_session_nonempty w).
  - intros s Hs Hne. apply String.eqb_neq in Hne.
    unfold current_session, remember_session, needs_fresh_id.
    now rewrite Hs, Hne.
Qed.

(* ----------------------------------------------------------------- *)
(** ** A recording, from initialization to the queries *)

Lemma succeed_next_weaken n k w :
  (k <= n)%nat -> succeed_next n w -> succeed_next k w.
Proof. intros Hk H i Hi. apply H. lia. Qed.

Lemma succeed_next_host_write_all events : forall k w,
  succeed_next (List.length events + k) w ->
  succeed_next k (host_write_all events w).
Proof.
  induction events as [|event rest IH]; intros k w H; [exact H|].
  simpl. apply IH.
  apply (succeed_next_tail _ w); [apply faults_host_write|exact H].
Qed.

Lemma succeed_next_host_reset k w :
  succeed_next (2 + k) w -> succeed_next k (host_reset w).
Proof.
  intros H.
  apply (succeed_next_tail _ (snd (next_turn w))); [reflexivity|].
  apply (succeed_next_tail _ w); [reflexivity|exact H].
Qed.

Lemma run_saveEvent_accepted event m w :
  not_ready m = false -> has_value (database w) = true ->
  next_outcome w = Success ->
  run (saveEvent event) (m, w) = ((m, host_write event w), inr tt).
Proof.
  intros Hnr Hst Ho. rewrite run_saveEvent_ready by exact Hnr.
  rewrite run_saveEventToDatabase_ok; auto.
  unfold not_ready in Hnr. apply Bool.orb_false_elim in Hnr.
  destruct Hnr as [_ Hdb]. now destruct (has_value (db m)).
Qed.

Lemma exec_all_cons {A} (p : Prog A) ps s :
  exec_all (p :: ps) s = exec_all ps (exec p s).
Proof. reflexivity. Qed.

Lemma exec_saveEvents_accepted events : forall m w,
  not_ready m = false -> has_value (database w) = true ->
  succeed_next (List.length events) w ->
  exec_all (map saveEvent events) (m, w) = (m, host_write_all events w).
Proof.
  induction events as [|event rest IH]; intros m w Hnr Hst Hok; [reflexivity|].
  simpl map. rewrite exec_all_cons. unfold exec.
  rewrite run_saveEvent_accepted;
    [|exact Hnr|exact Hst|exact (succeed_next_head _ _ Hok)].
  simpl fst. apply IH; [exact Hnr|now apply has_database_host_write|].
  apply (succeed_next_tail _ w); [apply faults_host_write|exact Hok].
Qed.

Lemma host_write_all_app events events' w :
  host_write_all (events ++ events') w
  = host_write_all events' (host_write_all events w).
Proof. apply fold_left_app. Qed.

Lemma unique_session_ids_single sid recs :
  sid <> "" ->
  Forall (fun r => rec_sessionId r = JsString sid) recs ->
  unique_session_ids recs = match recs with [] => [] | _ :: _ => [sid] end.
Proof.
  intros Hne. induction recs as [|r recs IH] using rev_ind; intros Hall.
  - reflexivity.
  - apply Forall_app in Hall. destruct Hall as [Hrecs Hr].
    inversion Hr as [|? ? Hsid _]. subst.
    rewrite unique_session_ids_snoc, (IH Hrecs).
    assert (Hs : session_string r = Some sid)
      by (apply session_string_Some; auto).
    rewrite Hs.
    destruct recs as [|r0 recs]; simpl app.
    + reflexivity.
    + simpl existsb. now rewrite String.eqb_refl.
Qed.

Lemma filter_all {A} (f : A -> bool) l :
  Forall (fun x => f x = true) l -> filter f l = l.
Proof.
  induction 1 as [|x l Hx _ IH]; [reflexivity|].
  simpl. now rewrite Hx, IH.
Qed.

Lemma read_result_ok {A} m w st (answer : ObjectStore -> A) :
  not_ready m = false -> next_outcome w = Success -> database w = Some st ->
  read_result m w answer = ((m, snd (next_turn w)), inr (answer st)).
Proof.
  unfold not_ready, read_result. intros Hnr -> ->.
  rewrite Bool.orb_comm. now rewrite Hnr.
Qed.

(** X8.  A whole recording: the manager is initialized with some events
    already captured, then further events are captured one after the
    other, and the host never fails.  The store then holds the captured
    events in capture order and nothing else, the queue is empty, the
    session list names one session (none when nothing was captured),
    and asking for that session gives every captured event back, in
    capture order. *)
Theorem recording_of_a_tab_is_one_session
        (m : Manager) (w : World) (events : list RRWebEvent) :
  isReady m = false -> isInitializing m = false ->
  succeed_next (3 + List.length (eventQueue m) + List.length events) w ->
  let captured := eventQueue m ++ events in
  let s := exec_all (initialize :: map saveEvent events) (m, w) in
  exists sid,
    sid <> "" /\
    stored_payloads (snd s) = captured /\
    eventQueue (fst s) = [] /\
    snd (run getAllSessions s)
    = inr (match captured with [] => [] | _ :: _ => [sid] end) /\
    map_result (map rec_data) (snd (run (getEventsBySession sid) s))
    = inr captured.
Proof.
  intros Hr Hi Hok captured s.
  set (w1 := host_write_all (eventQueue m) (host_reset w)).
  assert (Hs : s = (set_eventQueue [] (opened m),
                    host_write_all captured (host_reset w))).
  { unfold s, captured. rewrite exec_all_cons. unfold exec.
    rewrite run_initialize_ok;
      [|exact Hr|exact Hi|
       eapply succeed_next_weaken; [|exact Hok]; lia].
    simpl fst. rewrite exec_saveEvents_accepted.
    - now rewrite host_write_all_app.
    - reflexivity.
    - destruct (host_write_all_records (eventQueue m) (host_reset w)
                  createObjectStore eq_refl) as (st & -> & _). reflexivity.
    - apply succeed_next_host_write_all, succeed_next_host_reset.
      eapply succeed_next_weaken; [|exact Hok]; lia. }
  destruct (host_write_all_appends captured (host_reset w)
              createObjectStore eq_refl)
    as (st & added & Hdb & Hrec & _ & Hdata & _ & Hsid).
  simpl in Hrec. subst added.
  destruct (host_write_all_records captured (host_reset w)
              createObjectStore eq_refl) as (st' & Hdb' & _ & _ & Hreach).
  rewrite Hdb in Hdb'. inversion Hdb'. subst st'. clear Hdb'.
  assert (Hnext : next_outcome (host_write_all captured (host_reset w)) = Success).
  { apply (succeed_next_head 0).
    apply succeed_next_host_write_all, succeed_next_host_reset.
    eapply succeed_next_weaken; [|exact Hok].
    unfold captured. rewrite length_app. lia. }
  exists (current_session (host_reset w)).
  rewrite Hs. cbn [fst snd].
  split; [apply current_session_nonempty|].
  split; [unfold stored_payloads; now rewrite Hdb|].
  split; [reflexivity|]. split.
  - rewrite run_getAllSessions, (read_result_ok _ _ st); auto.
    cbn [snd]. unfold store_getAll.
    rewrite (unique_session_ids_single (current_session (host_reset w)));
      [|apply current_session_nonempty|exact Hsid].
    rewrite <- Hdata. now destruct (records st).
  - rewrite run_getEventsBySession, (read_result_ok _ _ st); auto.
    cbn [snd map_result].
    rewrite (wf_index_getAll st
               (IDBFacts.reachable_well_formed st (Hreach (reach_fresh)))).
    rewrite filter_all; [now rewrite Hdata|].
    eapply Forall_impl; [|exact Hsid]. intros r Hrs. now apply has_session_true.
Qed.

Lemma recording_of_a_tab_is_one_session_witness :
  let m := Samples.idle_with (Samples.events_upto 2) 1000 in
  let w := Samples.tab [] in
  let events := [Samples.event 3; Samples.event 4] in
  let captured := eventQueue m ++ events in
  let s := exec_all (initialize :: map saveEvent events) (m, w) in
  exists sid,
    sid <> "" /\
    stored_payloads (snd s) = captured /\
    eventQueue (fst s) = [] /\
    snd (run getAllSessions s)
    = inr (match captured with [] => [] | _ :: _ => [sid] end) /\
    map_result (map rec_data) (snd (run (getEventsBySession sid) s))
    = inr captured.
Proof.
  apply (recording_of_a_tab_is_one_session
           (Samples.idle_with (Samples.events_upto 2) 1000) (Samples.tab [])
           [Samples.event 3; Samples.event 4] eq_refl eq_refl).
  apply succeed_next_nil. reflexivity.
Defined.


(* ----------------------------------------------------------------- *)
(** ** Exports, console helpers and viewer buttons *)

(** X9.  [exportSession] resolves whatever the manager and the host do,
    leaves manager, store and session id alone, and gives exactly one
    feedback: one alert and no file, or, when the read found records of
    the session, no alert and one file, named after the session and the
    day, holding the payloads of those records. *)
Theorem exportSession_gives_one_feedback `{Host}
        (sessionId : string) (m : Manager) (w : World) :
  exists w',
    run (exportSession sessionId) (m, w) = ((m, w'), inr tt) /\
    database w' = database w /\
    sessionStorage w' = sessionStorage w /\
    ((exists msg,
         alerts w' = alerts w ++ [msg] /\ downloads w' = downloads w)
     \/
     (exists st,
         database w = Some st /\ index_getAll sessionId st <> [] /\
         alerts w' = alerts w /\
         downloads w'
         = downloads w ++
           [(export_filename sessionId (clock w'),
             JSON_stringify (map rec_data (index_getAll sessionId st)) 2)])).
Proof.
  rewrite run_exportSession. unfold read_result.
  destruct (negb (has_value (db m)) || negb (isReady m)).
  - eexists. split; [reflexivity|]. simpl.
    split; [reflexivity|]. split; [reflexivity|]. left. eauto.
  - destruct (next_outcome w), (database w) as [st|] eqn:Hst;
      try (eexists; split; [reflexivity|]; simpl;
           split; [exact Hst|]; split; [reflexivity|]; left; eauto).
    destruct (Z.of_nat (List.length (index_getAll sessionId st)) =? 0) eqn:E.
    + eexists. split; [reflexivity|]. simpl.
      split; [exact Hst|]. split; [reflexivity|]. left. eauto.
    + eexists. split; [reflexivity|]. simpl.
      split; [exact Hst|]. split; [reflexivity|]. right.
      exists st. repeat split.
      intros Hnil. rewrite Hnil in E. discriminate E.
Qed.

Lemma exportSession_feedback `{Host} sessionId m w :
  exists w',
    run (exportSession sessionId) (m, w) = ((m, w'), inr tt) /\
    untouched m w (m, w') /\
    ((exists msg,
         alerts w' = alerts w ++ [msg] /\ downloads w' = downloads w /\
         (msg = not_found_message \/ msg = failure_message))
     \/
     (exists file,
         downloads w' = downloads w ++ [file] /\ alerts w' = alerts w)).
Proof.
  rewrite run_exportSession. unfold read_result, untouched.
  destruct (negb (has_value (db m)) || negb (isReady m)) eqn:G.
  - eexists. split; [reflexivity|]. simpl.
    split; [repeat split|]. left. eauto 6.
  - assert (Hready : isReady m = false -> False).
    { intros Hr. rewrite Hr, Bool.orb_true_r in G. discriminate. }
    destruct (next_outcome w), (database w) as [st|] eqn:Hst;
      try (eexists; split; [reflexivity|]; simpl;
           split; [split; [reflexivity|]; split; [exact Hst|];
                   split; [reflexivity|]; intros Hr; now destruct (Hready Hr)|];
           left; eauto 6).
    destruct (Z.of_nat (List.length (index_getAll sessionId st)) =? 0) eqn:E.
    + eexists. split; [reflexivity|]. simpl.
      split; [split; [reflexivity|]; split; [exact Hst|];
              split; [reflexivity|]; intros Hr; now destruct (Hready Hr)|].
      left. eauto 6.
    + eexists. split; [reflexivity|]. simpl.
      split; [split; [reflexivity|]; split; [exact Hst|];
              split; [reflexivity|]; intros Hr; now destruct (Hready Hr)|].
      right. eauto.
Qed.

Lemma run_sessionStorage_getItem m w :
  run sessionStorage_getItem (m, w) = ((m, w), inr (sessionStorage w)).
Proof. reflexivity. Qed.

(** X12.  The button [exportCurrentSession] of the viewer always gives
    exactly one feedback, an alert or a file, and changes nothing else.
    The alert of its own [catch] branch is never the one shown: a
    failure of the export is reported by [exportSession] itself, which
    does not rethrow. *)
Theorem viewer_exportCurrentSession_reports_once `{Host}
        (m : Manager) (w : World) :
  exists w',
    run viewer_exportCurrentSession (m, w) = ((m, w'), inr tt) /\
    database w' = database w /\
    sessionStorage w' = sessionStorage w /\
    ((exists msg,
         alerts w' = alerts w ++ [msg] /\ downloads w' = downloads w /\
         msg <> "Failed to export current session")
     \/
     (exists file,
         downloads w' = downloads w ++ [file] /\ alerts w' = alerts w)).
Proof.
  unfold viewer_exportCurrentSession. run_body.
  destruct (isReady m); run_body.
  - rewrite run_sessionStorage_getItem. run_body.
    assert (Hnone :
      exists w',
        ((m, push_alert "No current session found" w), @inr Error unit tt)
        = ((m, w'), inr tt) /\
        database w' = database w /\ sessionStorage w' = sessionStorage w /\
        ((exists msg,
             alerts w' = alerts w ++ [msg] /\ downloads w' = downloads w /\
             msg <> "Failed to export current session")
         \/
         (exists file,
             downloads w' = downloads w ++ [file] /\ alerts w' = alerts w))).
    { eexists. split; [reflexivity|]. simpl. repeat split. left.
      eexists. repeat split. discriminate. }
    destruct (sessionStorage w) as [s|] eqn:Hs; [|exact Hnone].
    destruct (String.eqb s ""); run_body; [exact Hnone|].
    destruct (exportSession_feedback s m w)
      as (w' & -> & (_ & Hd & Hss & _) & Hfeed).
    exists w'. split; [reflexivity|]. simpl in Hd, Hss.
    split; [exact Hd|]. split; [congruence|].
    destruct Hfeed as [(msg & Ha & Hdl & Hmsg)|Hfile]; [left|right; exact Hfile].
    exists msg. repeat split; auto.
    destruct Hmsg as [-> | ->]; discriminate.
  - eexists. split; [reflexivity|]. simpl. repeat split. left.
    eexists. repeat split. discriminate.
Qed.

Lemma run_clearDatabase m w :
  run clearDatabase (m, w)
  = ((cleared m, snd (serve DeleteDatabase w)), inr tt).
Proof.
  unfold clearDatabase, deleteDatabase. run_body.
  destruct m as [[d|] i r q c];
    cbn [has_value db set_isInitializing set_isReady]; run_body; reflexivity.
Qed.

(** X10.  [window.clearRRWebDB()] on a host that does not fail: from
    any state of the manager, the call resolves with the manager Ready
    over a fresh, empty store whose key generator starts again at 1;
    what was queued is discarded, and the tab keeps its session id. *)
Theorem window_clearRRWebDB_leaves_fresh_ready_store (m : Manager) (w : World) :
  succeed_next 3 w ->
  exists m' w',
    run window_clearRRWebDB (m, w) = ((m', w'), inr tt) /\
    isReady m' = true /\ isInitializing m' = false /\
    has_value (db m') = true /\
    eventQueue m' = [] /\ maxQueueSize m' = maxQueueSize m /\
    database w' = Some createObjectStore /\
    sessionStorage w' = sessionStorage w.
Proof.
  intros Hok. unfold window_clearRRWebDB. run_body.
  rewrite run_clearDatabase.
  rewrite (serve_DeleteDatabase_ok w (succeed_next_head _ _ Hok)).
  cbn [snd].
  rewrite run_initialize_ok; [|reflexivity|reflexivity|].
  - eexists _, _. split; [reflexivity|]. repeat split.
  - apply (succeed_next_tail _ w); [reflexivity|exact Hok].
Qed.

Lemma window_clearRRWebDB_leaves_fresh_ready_store_witness :
  exists m' w',
    run window_clearRRWebDB
        (Samples.ready_with (Samples.events_upto 2) 1000,
         Samples.interleaved_tab)
    = ((m', w'), inr tt) /\
    isReady m' = true /\ isInitializing m' = false /\
    has_value (db m') = true /\
    eventQueue m' = [] /\ maxQueueSize m' = 1000 /\
    database w' = Some createObjectStore /\
    sessionStorage w' = sessionStorage Samples.interleaved_tab.
Proof.
  apply (window_clearRRWebDB_leaves_fresh_ready_store
           (Samples.ready_with (Samples.events_upto 2) 1000)
           Samples.interleaved_tab).
  apply succeed_next_nil. reflexivity.
Defined.

(** *** Reading never writes *)

Lemma untouched_refl m w : untouched m w (m, w).
Proof. repeat split. Qed.

Lemma untouched_trans m w s s' :
  untouched m w s -> untouched (fst s) (snd s) s' -> untouched m w s'.
Proof.
  intros (Hm & Hd & Hs & Hf) (Hm' & Hd' & Hs' & Hf').
  rewrite Hm in *. repeat split; try congruence.
  intros Hr. rewrite (Hf' Hr). auto.
Qed.

Lemma untouched_read_result {A} m w (answer : ObjectStore -> A) :
  untouched m w (fst (read_result m w answer)).
Proof.
  unfold read_result.
  destruct (negb (has_value (db m)) || negb (isReady m)) eqn:G;
    [apply untouched_refl|].
  repeat split. intros Hr. rewrite Hr, Bool.orb_true_r in G. discriminate.
Qed.

Lemma untouched_push_alert m w s msg :
  untouched m w s -> untouched m w (fst s, push_alert msg (snd s)).
Proof. intros (Hm & Hd & Hs & Hf). repeat split; auto. Qed.

Lemma untouched_getAllSessions m w :
  untouched m w (fst (run getAllSessions (m, w))).
Proof. rewrite run_getAllSessions. apply untouched_read_result. Qed.

Lemma untouched_getEventsBySession sessionId m w :
  untouched m w (fst (run (getEventsBySession sessionId) (m, w))).
Proof. rewrite run_getEventsBySession. apply untouched_read_result. Qed.

Lemma untouched_exportSession `{Host} sessionId m w :
  untouched m w (fst (run (exportSession sessionId) (m, w))).
Proof.
  destruct (exportSession_feedback sessionId m w) as (w' & -> & Hu & _).
  exact Hu.
Qed.

Lemma untouched_count_each sessions : forall m w,
  untouched m w (fst (run (count_each sessions) (m, w))).
Proof.
  induction sessions as [|sessionId rest IH]; intros m w;
    [apply untouched_refl|].
  change (count_each (sessionId :: rest))
    with (events <- getEventsBySession sessionId ;; count_each rest).
  run_body.
  pose proof (untouched_getEventsBySession sessionId m w) as Hu.
  destruct (run (getEventsBySession sessionId) (m, w)) as [[m1 w1] [e|events]];
    [exact Hu|].
  apply (untouched_trans m w (m1, w1)); [exact Hu|apply IH].
Qed.

Lemma untouched_listRRWebSessions m w :
  untouched m w (fst (run window_listRRWebSessions (m, w))).
Proof.
  unfold window_listRRWebSessions. run_body.
  destruct (isReady m); cbn [negb]; run_body; [|apply untouched_refl].
  pose proof (untouched_getAllSessions m w) as Hu.
  destruct (run getAllSessions (m, w)) as [[m1 w1] [e|sessions]];
    run_body; [exact Hu|].
  pose proof (untouched_count_each sessions m1 w1) as Hc.
  destruct (run (count_each sessions) (m1, w1)) as [[m2 w2] [e|[]]];
    run_body; apply (untouched_trans m w (m1, w1)); assumption.
Qed.

Lemma untouched_viewer_exportCurrentSession `{Host} m w :
  untouched m w (fst (run viewer_exportCurrentSession (m, w))).
Proof.
  unfold viewer_exportCurrentSession. run_body.
  destruct (isReady m) eqn:Hr; run_body.
  - rewrite run_sessionStorage_getItem. run_body.
    assert (Hnone : untouched m w (m, push_alert "No current session found" w)).
    { repeat split. }
    destruct (sessionStorage w) as [s|]; run_body; [|exact Hnone].
    destruct (String.eqb s ""); run_body; [exact Hnone|].
    pose proof (untouched_exportSession s m w) as Hu.
    destruct (run (exportSession s) (m, w)) as [s' [e|[]]]; run_body;
      [|exact Hu].
    destruct s' as [m1 w1]. rewrite run_alert.
    apply (untouched_push_alert m w (m1, w1)), Hu.
  - repeat split.
Qed.

Lemma run_discard {A} (p : Prog A) s :
  fst (run (discard p) s) = fst (run p s).
Proof.
  unfold discard. run_body. now destruct (run p s) as [s' [e|a]].
Qed.

(** X11.  The queries and the exports ([getAllEvents],
    [getEventsBySession], [getAllSessions], [exportSession], the console
    helpers [exportRRWebSession] and [listRRWebSessions], the viewer
    button [exportCurrentSession]) never write: whatever the host
    answers, the manager, the persisted store and the session id of the
    tab are after the call what they were before; and on a manager that
    is not ready they send no request to the host. *)
Theorem queries_never_write `{Host} (i : Invocation) (m : Manager) (w : World) :
  is_query i = true ->
  untouched m w (exec (invoked i) (m, w)).
Proof.
  unfold exec.
  destruct i as [|event| | |sessionId| |sessionId| |sessionId| |];
    try discriminate; intros _; simpl invoked.
  - rewrite run_discard, run_getAllEvents. apply untouched_read_result.
  - rewrite run_discard. apply untouched_getEventsBySession.
  - rewrite run_discard. apply untouched_getAllSessions.
  - apply untouched_exportSession.
  - unfold window_exportRRWebSession. run_body.
    destruct (isReady m) eqn:Hr; cbn [negb]; run_body; [|apply untouched_refl].
    assert (Hlist :
      untouched m w
        (fst (let (s', r) :=
                let (s', r) := run getAllSessions (m, w) in
                match r with
                | inl e => (s', inl e)
                | inr _ => (s', inr tt)
                end in
              match r with
              | inl _ => (s', @inr Error unit tt)
              | inr a => (s', inr a)
              end))).
    { pose proof (untouched_getAllSessions m w) as Hu.
      now destruct (run getAllSessions (m, w)) as [s' [e|sessions]]. }
    destruct sessionId as [s|]; [|run_body; exact Hlist].
    destruct (String.eqb s ""); run_body; [exact Hlist|].
    pose proof (untouched_exportSession s m w) as Hu.
    now destruct (run (exportSession s) (m, w)) as [s' [e|[]]].
  - rewrite run_discard. apply untouched_listRRWebSessions.
  - apply untouched_viewer_exportCurrentSession.
Qed.

Lemma queries_never_write_witness :
  untouched (Samples.ready_with [] 1000) Samples.interleaved_tab
    (exec (invoked (H := ReferenceHost.host) (InvokeExportSession "s1"))
          (Samples.ready_with [] 1000, Samples.interleaved_tab)).
Proof.
  apply (queries_never_write (H := ReferenceHost.host)
           (InvokeExportSession "s1")
           (Samples.ready_with [] 1000) Samples.interleaved_tab).
  reflexivity.
Defined.


(* ----------------------------------------------------------------- *)
(** ** What every interleaving of calls keeps true of the store *)

Lemma store_safe_bind {A B} (p : Prog A) (f : A -> Prog B) :
  store_safe p -> (forall a, store_safe (f a)) -> store_safe (bind p f).
Proof.
  intros Hp Hf. induction Hp as [a|e|X step k Hstep _ IH|req k Hreq _ IH];
    simpl.
  - apply Hf.
  - constructor.
  - constructor; assumption.
  - constructor; assumption.
Qed.

Lemma store_safe_try_catch {A} (p : Prog A) (handler : Error -> Prog A) :
  store_safe p -> (forall e, store_safe (handler e)) ->
  store_safe (try_catch p handler).
Proof.
  intros Hp Hh. induction Hp as [a|e|X step k Hstep _ IH|req k Hreq _ IH];
    simpl.
  - constructor.
  - apply Hh.
  - constructor; assumption.
  - constructor; assumption.
Qed.

Lemma store_safe_this : store_safe this.
Proof. constructor; [reflexivity|constructor]. Qed.

Lemma store_safe_assign f : store_safe (assign f).
Proof. constructor; [reflexivity|constructor]. Qed.

Lemma store_safe_Date_now : store_safe Date_now.
Proof. constructor; [reflexivity|constructor]. Qed.

Lemma store_safe_sessionStorage_getItem : store_safe sessionStorage_getItem.
Proof. constructor; [reflexivity|constructor]. Qed.

Lemma store_safe_alert msg : store_safe (alert msg).
Proof. constructor; [reflexivity|constructor]. Qed.

Lemma store_safe_download name content : store_safe (download name content).
Proof. constructor; [reflexivity|constructor]. Qed.

(** Whatever follows [getSessionId] is handed a non-empty id. *)
Lemma store_safe_with_session {B} (f : string -> Prog B) :
  (forall sessionId, sessionId <> "" -> store_safe (f sessionId)) ->
  store_safe (sessionId <- getSessionId ;; f sessionId).
Proof.
  intros Hf.
  assert (Hfresh : forall now suffix,
    store_safe
      (bind (sessionStorage_setItem
               (String.append "session-"
                  (String.append (number_toString now)
                     (String.append "-" suffix))) ;;
             Ret (String.append "session-"
                    (String.append (number_toString now)
                       (String.append "-" suffix)))) f)).
  { intros now suffix. cbn [bind sessionStorage_setItem].
    constructor; [reflexivity|]. intros _. apply Hf. discriminate. }
  unfold getSessionId.
  cbn [bind sessionStorage_getItem Date_now Math_random_base36].
  constructor; [reflexivity|]. intros [s|].
  - destruct (String.eqb s "") eqn:E.
    + cbn [bind]. constructor; [reflexivity|]. intros now.
      constructor; [reflexivity|]. intros suffix. apply Hfresh.
    + cbn [bind]. apply Hf. now apply String.eqb_neq.
  - cbn [bind]. constructor; [reflexivity|]. intros now.
    constructor; [reflexivity|]. intros suffix. apply Hfresh.
Qed.

Create HintDb safe.

Ltac safe_step :=
  lazymatch goal with
  | |- store_safe (bind getSessionId _) =>
      apply store_safe_with_session; intros ? ?
  | |- store_safe (bind _ _) => apply store_safe_bind; [|intros ?]
  | |- store_safe (try_catch _ _) => apply store_safe_try_catch; [|intros ?]
  | |- store_safe (Ret _) => apply safe_Ret
  | |- store_safe (Throw _) => apply safe_Throw
  | |- store_safe this => apply store_safe_this
  | |- store_safe (assign _) => apply store_safe_assign
  | |- store_safe Date_now => apply store_safe_Date_now
  | |- store_safe sessionStorage_getItem =>
      apply store_safe_sessionStorage_getItem
  | |- store_safe (alert _) => apply store_safe_alert
  | |- store_safe (download _ _) => apply store_safe_download
  | |- store_safe (Await _ _) => apply safe_Await; [try exact I|intros ?]
  | |- store_safe (if ?b then _ else _) => destruct b
  | |- store_safe (match ?x with _ => _ end) => destruct x
  end.

Ltac safe := repeat safe_step; auto with safe.

Lemma store_safe_saveEventToDatabase event :
  store_safe (saveEventToDatabase event).
Proof.
  unfold saveEventToDatabase. safe.
  simpl. eexists. split; [reflexivity|assumption].
Qed.
#[local] Hint Resolve store_safe_saveEventToDatabase : safe.

Lemma store_safe_drain_loop events : store_safe (drain_loop events).
Proof.
  induction events as [|event rest IH]; [constructor|].
  rewrite drain_loop_cons. safe.
Qed.
#[local] Hint Resolve store_safe_drain_loop : safe.

Lemma store_safe_processEventQueue : store_safe processEventQueue.
Proof. unfold processEventQueue. safe. Qed.
#[local] Hint Resolve store_safe_processEventQueue : safe.

Lemma store_safe_initialize : store_safe initialize.
Proof. unfold initialize, deleteDatabase, openDatabase. safe. Qed.

Lemma store_safe_saveEvent event : store_safe (saveEvent event).
Proof. unfold saveEvent. safe. Qed.

Lemma store_safe_clearDatabase : store_safe clearDatabase.
Proof. unfold clearDatabase, deleteDatabase. safe. Qed.

Lemma store_safe_getAllEvents : store_safe getAllEvents.
Proof. unfold getAllEvents. safe. Qed.

Lemma store_safe_getEventsBySession sessionId :
  store_safe (getEventsBySession sessionId).
Proof. unfold getEventsBySession. safe. Qed.

Lemma store_safe_getAllSessions : store_safe getAllSessions.
Proof. unfold getAllSessions. safe. Qed.
#[local] Hint Resolve store_safe_initialize store_safe_saveEvent
  store_safe_clearDatabase store_safe_getAllEvents
  store_safe_getEventsBySession store_safe_getAllSessions : safe.

Lemma store_safe_exportSession `{Host} sessionId :
  store_safe (exportSession sessionId).
Proof. unfold exportSession. safe. Qed.
#[local] Hint Resolve store_safe_exportSession : safe.

Lemma store_safe_count_each sessions : store_safe (count_each sessions).
Proof.
  induction sessions as [|sessionId rest IH]; [constructor|].
  change (count_each (sessionId :: rest))
    with (events <- getEventsBySession sessionId ;; count_each rest).
  safe.
Qed.
#[local] Hint Resolve store_safe_count_each : safe.

Lemma store_safe_invoked `{Host} i : store_safe (invoked i).
Proof.
  destruct i; simpl invoked;
    unfold discard, window_clearRRWebDB, window_exportRRWebSession,
      window_listRRWebSessions, viewer_exportCurrentSession;
    safe.
Qed.

(** The host keeps the store in order when the record written is
    tagged. *)
Lemma serve_store_ok req w :
  tags_its_record req -> store_ok w -> store_ok (snd (serve req w)).
Proof.
  intros Hreq Hok. unfold serve.
  assert (Hdb : database (snd (next_turn w)) = database w) by reflexivity.
  destruct (next_turn w) as [o w1]. simpl in Hdb.
  assert (Hok1 : store_ok w1).
  { intros st Hst. apply Hok. congruence. }
  destruct req as [| |v| |key].
  - destruct o; simpl; try exact Hok1; intros st Hst; discriminate.
  - destruct o; simpl; try exact Hok1.
    intros st Hst. simpl in Hst. inversion Hst. subst st.
    destruct (database w1) as [st1|] eqn:E; [now apply Hok1|].
    split; [constructor|constructor].
  - destruct o, (database w1) as [st1|] eqn:E; simpl; try exact Hok1.
    intros st Hst. simpl in Hst. inversion Hst. subst st.
    destruct (Hok1 st1 E) as [Hreach Htag].
    split; [now constructor|].
    simpl. apply Forall_app. split; [exact Htag|].
    constructor; [|constructor]. exact Hreq.
  - destruct o, (database w1); simpl; exact Hok1.
  - destruct o, (database w1); simpl; exact Hok1.
Qed.

Lemma start_store_safe {A} (p : Prog A) :
  store_safe p -> forall s,
  database (snd (fst (start p s))) = database (snd s) /\
  match snd (start p s) with
  | Settled _ => True
  | Suspended req k => tags_its_record req /\ forall r, store_safe (k r)
  end.
Proof.
  induction 1 as [a|e|X step k Hstep Hk IH|req k Hreq Hk _]; intros s; simpl.
  - auto.
  - auto.
  - specialize (Hstep s). destruct (step s) as [x s']. simpl in Hstep.
    destruct (IH x s') as [Hd Hs]. split; [congruence|exact Hs].
  - auto.
Qed.

Lemma enter_sound p sys : store_safe p -> sound sys -> sound (enter p sys).
Proof.
  intros Hp [Hok Hpend]. unfold enter, sound, world_of in *.
  destruct (start_store_safe p Hp (fst sys)) as [Hd Hs].
  destruct (start p (fst sys)) as [s' [r|req k]]; simpl in *.
  - split; [|exact Hpend]. intros st Hst. apply Hok. congruence.
  - split; [intros st Hst; apply Hok; congruence|].
    apply Forall_app. split; [exact Hpend|].
    constructor; [exact Hs|constructor].
Qed.

Lemma turn_sound t sys :
  match t with Call p => store_safe p | Complete => True end ->
  sound sys -> sound (turn t sys).
Proof.
  destruct t as [p|]; intros Ht Hsys; [now apply enter_sound|].
  unfold turn. destruct sys as [[m w] pending]. simpl snd. simpl fst.
  destruct pending as [|task rest]; [exact Hsys|].
  destruct Hsys as [Hok Hpend]. unfold world_of in Hok. simpl in Hok.
  inversion Hpend as [|? ? [Hreq Hres] Hrest]. subst.
  pose proof (serve_store_ok (awaited task) w Hreq Hok) as Hok'.
  destruct (serve (awaited task) w) as [resp w']. simpl in Hok'.
  apply enter_sound; [apply Hres|]. split; assumption.
Qed.

Lemma play_sound `{Host} schedule : forall sys,
  sound sys -> sound (play (scheduled schedule) sys).
Proof.
  induction schedule as [|step rest IH]; intros sys Hsys; [exact Hsys|].
  simpl. apply IH. apply turn_sound; [|exact Hsys].
  destruct step as [i|]; [apply store_safe_invoked|exact I].
Qed.

(** X6.  Whatever calls are made on the manager, the console helpers
    and the viewer button, in whatever order, and whenever the host
    answers the requests in flight (successfully or not): if a store
    exists afterwards it is one IndexedDB can hold, so its ids are
    strictly increasing and its ['sessionId'] index agrees with its
    records, and every record carries a non-empty string session id.
    The store the run starts from must be absent or in that state. *)
Theorem store_in_order_under_any_schedule `{Host}
        (schedule : list (option Invocation)) (m : Manager) (w : World) :
  store_ok w ->
  forall st,
    database (world_of (play (scheduled schedule) ((m, w), []))) = Some st ->
    well_formed st /\ Forall tagged (records st).
Proof.
  intros Hok st Hst.
  destruct (play_sound schedule ((m, w), [])) as [Hok' _].
  { split; [exact Hok|constructor]. }
  destruct (Hok' st Hst) as [Hreach Htag].
  split; [now apply IDBFacts.reachable_well_formed|exact Htag].
Qed.

Lemma store_in_order_under_any_schedule_witness :
  store_ok (Samples.tab [Success; Success; Failure]) /\
  forall st,
    database
      (world_of
         (play (scheduled (H := ReferenceHost.host)
                  [Some InvokeInitialize;
                   Some (InvokeSaveEvent (Samples.event 1));
                   None; None;
                   Some (InvokeSaveEvent (Samples.event 2));
                   None;
                   Some InvokeListRRWebSessions; None; None])
               ((new_RRWebDBManager, Samples.tab [Success; Success; Failure]),
                []))) = Some st ->
    well_formed st /\ Forall tagged (records st).
Proof.
  split; [intros st Hst; discriminate Hst|].
  apply (store_in_order_under_any_schedule (H := ReferenceHost.host)).
  intros st Hst. discriminate Hst.
Defined.

(* ----------------------------------------------------------------- *)
(** ** Listing the sessions from the console *)

Lemma next_outcome_faults w :
  next_outcome w = match faults w with [] => Success | o :: _ => o end.
Proof. reflexivity. Qed.

Lemma run_count_each st sessions : forall m w,
  not_ready m = false -> database w = Some st ->
  exists w',
    run (count_each sessions) (m, w)
    = ((m, w'),
       if forallb succeeds (firstn (List.length sessions) (faults w))
       then inr tt else inl (DOMException "UnknownError")).
Proof.
  induction sessions as [|sessionId rest IH]; intros m w Hnr Hst.
  - exists w. reflexivity.
  - change (count_each (sessionId :: rest))
      with (events <- getEventsBySession sessionId ;; count_each rest).
    run_body. rewrite run_getEventsBySession. unfold read_result.
    pose proof Hnr as Hg. unfold not_ready in Hg.
    rewrite Bool.orb_comm in Hg. rewrite Hg, Hst.
    destruct (IH m (snd (next_turn w)) Hnr Hst) as [w' Hrest].
    change (faults (snd (next_turn w))) with (tl (faults w)) in Hrest.
    rewrite next_outcome_faults.
    destruct (faults w) as [|o fs]; simpl List.length; simpl firstn.
    + rewrite Hrest. simpl tl. rewrite firstn_nil. simpl. eauto.
    + destruct o; simpl forallb; [rewrite Hrest; eauto| | |]; eauto.
Qed.

(** X13.  [window.listRRWebSessions()] on a Ready manager whose first
    read succeeds: the helper then counts the events of each session,
    one read per session, and answers the list of sessions if all those
    reads succeed; if one of them fails, the list already obtained is
    dropped and the answer is the empty list.  It never rejects. *)
Theorem window_listRRWebSessions_lists_or_hides
        (m : Manager) (w : World) (st : ObjectStore) :
  not_ready m = false -> database w = Some st -> next_outcome w = Success ->
  let ids := unique_session_ids (records st) in
  snd (run window_listRRWebSessions (m, w))
  = inr (if forallb succeeds (firstn (List.length ids) (tl (faults w)))
         then ids else []).
Proof.
  intros Hnr Hst Ho ids. unfold window_listRRWebSessions. run_body.
  assert (Hr : isReady m = true).
  { unfold not_ready in Hnr. apply Bool.orb_false_elim in Hnr.
    now destruct (isReady m). }
  rewrite Hr. cbn [negb]. run_body.
  rewrite run_getAllSessions, (read_result_ok _ _ st) by assumption.
  run_body. unfold store_getAll. fold ids.
  destruct (run_count_each st ids m (snd (next_turn w)) Hnr Hst) as [w' ->].
  change (faults (snd (next_turn w))) with (tl (faults w)).
  destruct (forallb succeeds (firstn (List.length ids) (tl (faults w))));
    run_body; reflexivity.
Qed.

Lemma window_listRRWebSessions_lists_or_hides_witness :
  snd (run window_listRRWebSessions
           (Samples.ready_with [] 1000,
            set_database (Some Samples.interleaved)
                         (Samples.tab [Success; Success; Failure])))
  = inr [].
Proof.
  apply (window_listRRWebSessions_lists_or_hides
           (Samples.ready_with [] 1000)
           (set_database (Some Samples.interleaved)
                         (Samples.tab [Success; Success; Failure]))
           Samples.interleaved eq_refl eq_refl eq_refl).
Defined.

(* ----------------------------------------------------------------- *)
(** ** Events emitted without waiting

    The recorder hands each event to [saveEvent] from the [emit]
    callback and does not await the promise: the calls are in flight
    together. *)

Lemma start_saveEvent_ready event m w :
  not_ready m = false ->
  exists k,
    start (saveEvent event) (m, w)
    = ((m, remember_session w), Suspended (StoreAdd (record_for event w)) k) /\
    forall s, start (k OnSuccess) s = (s, Settled (inr tt)).
Proof.
  unfold not_ready. intros Hnr. apply Bool.orb_false_elim in Hnr.
  destruct Hnr as [Hr Hdb].
  destruct m as [[d|] i r q c]; [|discriminate Hdb].
  simpl in Hr. destruct r; [|discriminate Hr].
  unfold remember_session, needs_fresh_id, record_for, current_session, fresh_id.
  cbn. destruct (sessionStorage w) as [s|]; cbn.
  - destruct (String.eqb s ""); cbn; eexists; split; reflexivity.
  - eexists; split; reflexivity.
Qed.

Lemma clock_remember w : clock (remember_session w) = clock w.
Proof. unfold remember_session. destruct (needs_fresh_id w); reflexivity. Qed.

Lemma record_for_same event w w' :
  clock w' = clock w -> current_session w' = current_session w ->
  record_for event w' = record_for event w.
Proof. unfold record_for. now intros -> ->. Qed.

Lemma play_calls_ready events : forall m w pending,
  not_ready m = false ->
  exists added w',
    play (calls events) ((m, w), pending) = ((m, w'), pending ++ added) /\
    Forall2 (write_in_flight w) events added /\
    clock w' = clock w /\ current_session w' = current_session w /\
    database w' = database w /\ faults w' = faults w.
Proof.
  induction events as [|event rest IH]; intros m w pending Hnr.
  - exists [], w. rewrite app_nil_r. repeat split. constructor.
  - destruct (start_saveEvent_ready event m w Hnr) as (k & Hstart & Hk).
    destruct (IH m (remember_session w)
                 (pending ++ [{| awaited := StoreAdd (record_for event w);
                                 resume := k |}]) Hnr)
      as (added & w' & Hplay & Hadded & Hclock & Hsid & Hdb & Hf).
    exists ({| awaited := StoreAdd (record_for event w); resume := k |} :: added),
           w'.
    split; [|split; [|split; [|split; [|split]]]].
    + change (calls (event :: rest))
        with (Call (saveEvent event) :: calls rest).
      rewrite play_cons. unfold turn, enter. cbn [fst snd].
      rewrite Hstart. etransitivity; [exact Hplay|].
      now rewrite <- app_assoc.
    + constructor; [split; [reflexivity|exact Hk]|].
      eapply Forall2_impl; [|exact Hadded].
      intros ev task [Ha Hr]. split; [|exact Hr].
      rewrite Ha. f_equal. apply record_for_same;
        [apply clock_remember|apply current_session_remember].
    + now rewrite Hclock, clock_remember.
    + now rewrite Hsid, current_session_remember.
    + now rewrite Hdb, database_remember.
    + now rewrite Hf, faults_remember.
Qed.

Lemma serve_StoreAdd_ok v w st :
  next_outcome w = Success -> database w = Some st ->
  serve (StoreAdd v) w
  = (OnSuccess, set_database (Some (store_add v st)) (snd (next_turn w))).
Proof.
  unfold next_outcome, serve. intros Ho Hd.
  assert (Hd1 : database (snd (next_turn w)) = Some st) by exact Hd.
  destruct (next_turn w) as [o w1]. simpl in *. subst o. now rewrite Hd1.
Qed.

Lemma play_writes_in_flight w0 events pending :
  Forall2 (write_in_flight w0) events pending ->
  forall m w st,
    database w = Some st -> succeed_next (List.length events) w ->
    exists w' st',
      play (repeat Complete (List.length events)) ((m, w), pending)
      = ((m, w'), []) /\
      database w' = Some st' /\
      map rec_data (records st') = map rec_data (records st) ++ events.
Proof.
  induction 1 as [|event task events pending [Hreq Hres] _ IH];
    intros m w st Hst Hok.
  - exists w, st. rewrite app_nil_r. auto.
  - simpl List.length. simpl repeat. rewrite play_cons, turn_Complete.
    cbn [fst snd]. rewrite Hreq.
    rewrite (serve_StoreAdd_ok _ w st (succeed_next_head _ _ Hok) Hst).
    cbn [fst snd]. unfold enter. cbn [fst snd]. rewrite Hres.
    destruct (IH m (set_database (Some (store_add (record_for event w0) st))
                                 (snd (next_turn w)))
                 (store_add (record_for event w0) st) eq_refl)
      as (w' & st' & Hplay & Hst' & Hrec).
    { apply (succeed_next_tail _ w); [reflexivity|exact Hok]. }
    exists w', st'. split; [exact Hplay|]. split; [exact Hst'|].
    rewrite Hrec. simpl records. rewrite map_app, <- app_assoc. reflexivity.
Qed.

(** X14.  Events emitted one after the other to a Ready manager, none
    of the calls awaited, on a host that accepts the writes and answers
    them in the order issued: when all the writes are answered no call
    is left in flight, the manager is as it was, and the store holds the
    emitted events behind what it held, in the order of emission. *)
Theorem emitted_events_are_stored_in_emit_order
        (m : Manager) (w : World) (st : ObjectStore)
        (events : list RRWebEvent) :
  not_ready m = false -> database w = Some st ->
  succeed_next (List.length events) w ->
  let sys := play (calls events ++ repeat Complete (List.length events))
                  ((m, w), []) in
  snd sys = [] /\ manager_of sys = m /\
  stored_payloads (world_of sys) = stored_payloads w ++ events.
Proof.
  intros Hnr Hst Hok sys. unfold sys. clear sys. rewrite play_app.
  destruct (play_calls_ready events m w [] Hnr)
    as (added & w1 & -> & Hadded & _ & _ & Hdb & Hf).
  simpl app.
  destruct (play_writes_in_flight w events added Hadded m w1 st)
    as (w' & st' & -> & Hst' & Hrec).
  - congruence.
  - intros i Hi. rewrite Hf. now apply Hok.
  - unfold manager_of, world_of, stored_payloads. cbn [fst snd].
    rewrite Hst', Hst. auto.
Qed.

Lemma emitted_events_are_stored_in_emit_order_witness :
  let sys := play (calls (Samples.events_upto 3)
                     ++ repeat Complete (List.length (Samples.events_upto 3)))
                  ((Samples.ready_with [] 1000, Samples.open_tab []), []) in
  snd sys = [] /\ manager_of sys = Samples.ready_with [] 1000 /\
  stored_payloads (world_of sys)
  = stored_payloads (Samples.open_tab []) ++ Samples.events_upto 3.
Proof.
  apply (emitted_events_are_stored_in_emit_order
           (Samples.ready_with [] 1000) (Samples.open_tab [])
           createObjectStore (Samples.events_upto 3) eq_refl eq_refl).
  apply succeed_next_nil. reflexivity.
Defined.

(* ----------------------------------------------------------------- *)
(** ** Clearing while an initialization is in flight *)

Lemma start_initialize_begins m w :
  isReady m = false -> isInitializing m = false ->
  start initialize (m, w)
  = ((set_db None (set_isInitializing true m), w),
     Suspended DeleteDatabase (fun _ => initialize_after_delete)).
Proof.
  destruct m as [[d|] i r q c]; simpl; intros -> ->; reflexivity.
Qed.

(** X15.  [clearDatabase()] does not cancel an [initialize()] that is
    in flight.  When it is called while the initialization waits for
    its delete request, the manager is at once not ready and not
    initializing, with an empty queue; but once the host has answered
    the three requests (successfully) the initialization has gone on to
    open a fresh store and the manager is Ready again, although no
    further [initialize()] was called. *)
Theorem clearDatabase_does_not_cancel_initialize (m : Manager) (w : World) :
  isReady m = false -> isInitializing m = false ->
  succeed_next 3 w ->
  let sys1 := play [Call initialize; Call clearDatabase] ((m, w), []) in
  let sys2 := play [Complete; Complete; Complete] sys1 in
  (isReady (manager_of sys1) = false /\
   isInitializing (manager_of sys1) = false /\
   eventQueue (manager_of sys1) = [] /\
   map awaited (snd sys1) = [DeleteDatabase; DeleteDatabase]) /\
  (snd sys2 = [] /\
   isReady (manager_of sys2) = true /\
   isInitializing (manager_of sys2) = false /\
   has_value (db (manager_of sys2)) = true /\
   eventQueue (manager_of sys2) = [] /\
   database (world_of sys2) = Some createObjectStore).
Proof.
  intros Hr Hi Hok sys1 sys2.
  set (first_delete :=
         {| awaited := DeleteDatabase;
            resume := fun _ : Response => initialize_after_delete |}).
  set (second_delete :=
         {| awaited := DeleteDatabase;
            resume := fun _ : Response => Ret tt |}).
  assert (H1 : sys1 = ((cleared m, w), [first_delete; second_delete])).
  { unfold sys1. rewrite !play_cons. unfold turn at 2, enter. cbn [fst snd].
    rewrite (start_initialize_begins m w Hr Hi). cbn [app].
    unfold turn, enter. cbn [fst snd]. rewrite start_clearDatabase.
    reflexivity. }
  split; [rewrite H1; repeat split|].
  set (w1 := set_database None (snd (next_turn w))).
  set (w2 := set_database None (snd (next_turn w1))).
  set (w3 := set_database (Some createObjectStore) (snd (next_turn w2))).
  assert (Hok1 : succeed_next 2 w1).
  { apply (succeed_next_tail _ w); [reflexivity|exact Hok]. }
  assert (Hok2 : succeed_next 1 w2).
  { apply (succeed_next_tail _ w1); [reflexivity|exact Hok1]. }
  assert (H2 : sys2 = ((set_eventQueue [] (opened (cleared m)), w3), [])).
  { unfold sys2. rewrite H1, !play_cons. unfold first_delete, second_delete.
    rewrite turn_Complete. cbn [awaited resume fst snd].
    rewrite (serve_DeleteDatabase_ok w (succeed_next_head _ _ Hok)).
    cbn [fst snd]. fold w1. unfold enter at 1. cbn [fst snd].
    rewrite start_initialize_after_delete. cbn [app].
    rewrite turn_Complete. cbn [awaited resume fst snd].
    rewrite (serve_DeleteDatabase_ok w1 (succeed_next_head _ _ Hok1)).
    cbn [fst snd]. fold w2. unfold enter at 1. cbn [fst snd start].
    rewrite turn_Complete. cbn [awaited resume fst snd].
    rewrite (serve_OpenDatabase_fresh w2 (succeed_next_head _ _ Hok2) eq_refl).
    cbn [fst snd]. fold w3.
    change (existsb (String.eqb "events") (objectStoreNames connection))
      with true. cbv iota.
    reflexivity. }
  rewrite H2. repeat split.
Qed.

Lemma clearDatabase_does_not_cancel_initialize_witness :
  let sys1 := play [Call initialize; Call clearDatabase]
                   ((Samples.idle_with (Samples.events_upto 2) 1000,
                     Samples.tab []), []) in
  let sys2 := play [Complete; Complete; Complete] sys1 in
  (isReady (manager_of sys1) = false /\
   isInitializing (manager_of sys1) = false /\
   eventQueue (manager_of sys1) = [] /\
   map awaited (snd sys1) = [DeleteDatabase; DeleteDatabase]) /\
  (snd sys2 = [] /\
   isReady (manager_of sys2) = true /\
   isInitializing (manager_of sys2) = false /\
   has_value (db (manager_of sys2)) = true /\
   eventQueue (manager_of sys2) = [] /\
   database (world_of sys2) = Some createObjectStore).
Proof.
  apply (clearDatabase_does_not_cancel_initialize
           (Samples.idle_with (Samples.events_upto 2) 1000) (Samples.tab [])
           eq_refl eq_refl).
  apply succeed_next_nil. reflexivity.
Defined.
